(* ===================================================================== *)
(* pymatgen.analysis.elasticity.elastic: a shallow embedding of the       *)
(* finite-difference fitting pipeline and of the guards around it.        *)
(*                                                                        *)
(* Numbers: the Python code computes with IEEE doubles.  Here they are    *)
(* elements of an arbitrary ordered field F (exact arithmetic), so that   *)
(* comparisons against tolerances and the algebra of the linear solves    *)
(* are the mathematical ones; rounding is not modelled.                   *)
(* Exceptions are values of [exn], warnings are collected in a log.       *)
(* ===================================================================== *)

From Stdlib Require Import String Ascii.
From HB Require Import structures.
From mathcomp Require Import boot order algebra.

Set Implicit Arguments.
Unset Strict Implicit.
Unset Printing Implicit Defensive.

Import Order.TTheory GRing.Theory Num.Theory.

(* --------------------------------------------------------------------- *)
(* Exceptions, warnings, and the monad threading them                     *)
(* --------------------------------------------------------------------- *)

(** The exceptions the module raises itself or lets escape from numpy. *)
Inductive exn : Type :=
  | OddRank                 (* ValueError: ElasticTensor must have even rank *)
  | RankMismatch            (* ValueError raised by Tensor.__new__ (check_rank) *)
  | BadShape                (* ValueError raised by Tensor.__new__ (not 3-dimensional) *)
  | Unphysical              (* ValueError: Bulk or shear modulus is negative *)
  | SoundVelocityUndefined  (* ValueError: k_vrh or g_vrh is negative, sound velocity is undefined *)
  | AmbiguousEqStress       (* ValueError: Multiple stresses found for equilibrium strain state *)
  | MissingStrainStates of seq nat
                            (* ValueError: Missing independent strain states: {...};
                               the unit state along axis i is recorded as i *)
  | EmptyGroupIndex         (* IndexError: mstrains[-1] on an empty selection *)
  | ArgminEmpty             (* ValueError: attempt to get argmin of an empty sequence *)
  | MaskMismatch            (* IndexError: boolean index did not match indexed array *)
  | IndexNotFound           (* ValueError: tuple.index(x): x not in tuple *)
  | StencilIndex            (* IndexError: b[n] with n >= len(hvec) *)
  | KeyError                (* KeyError on a dict lookup *)
  | LinAlgError             (* numpy.linalg.LinAlgError: Singular matrix *)
  | AxisError               (* numpy AxisError: axis 1 is out of bounds for array of dimension 1 *)
  | AttributeError          (* AttributeError: 'numpy.ndarray' object has no attribute 'voigt' *)
  | EmptyStack              (* ValueError: need at least one array to concatenate *)
  | NegativeDimensions      (* ValueError: negative dimensions are not allowed *)
  | EmptyUnion.             (* TypeError: unbound method set.union() needs an argument *)

Inductive warning : Type :=
  | NotVoigtSymmetric       (* Input elastic tensor does not satisfy standard Voigt symmetries *)
  | NoEqState               (* No eq state found, returning zero voigt stress *)
  | ExtraStrainStates.      (* Extra strain states in strain-stress pairs are neglected ... *)

Inductive result (A : Type) : Type :=
  | Ok of A
  | Raise of exn.

Arguments Raise {A} e.

(** A computation returns the warnings it emitted and how it ended. *)
Definition M (A : Type) : Type := (seq warning * result A)%type.

Definition ret {A} (a : A) : M A := ([::], Ok a).
Definition raise {A} (e : exn) : M A := ([::], Raise e).
Definition warn (w : warning) : M unit := ([:: w], Ok tt).

Definition bind {A B} (m : M A) (k : A -> M B) : M B :=
  match m with
  | (ws, Ok a) => let: (ws', r) := k a in (ws ++ ws', r)
  | (ws, Raise e) => (ws, Raise e)
  end.

Notation "x <- m ;; k" := (bind m (fun x => k))
  (at level 100, m at next level, right associativity).
Notation "m ;;; k" := (bind m (fun _ => k))
  (at level 100, right associativity).

Definition outcome {A} (m : M A) : result A := m.2.
Definition warnings {A} (m : M A) : seq warning := m.1.

Definition lift {A} (r : result A) : M A := ([::], r).

(** Sequencing of computations that emit no warning. *)
Definition rbind {A B} (r : result A) (k : A -> result B) : result B :=
  match r with
  | Ok a => k a
  | Raise e => Raise e
  end.

(** A list comprehension whose items may raise: the first raise wins. *)
Fixpoint collect {A} (rs : seq (result A)) : result (seq A) :=
  if rs is r :: rs' then
    match r with
    | Ok a => if collect rs' is Ok s then Ok (a :: s) else collect rs'
    | Raise e => Raise e
    end
  else Ok [::].

(** A for loop that threads an accumulator and stops at the first raise. *)
Fixpoint foldM {A B} (f : B -> A -> M B) (b : B) (s : seq A) : M B :=
  if s is x :: s' then b' <- f b x ;; foldM f b' s' else ret b.

(** Python strings compare by content. *)
HB.instance Definition _ := hasDecEq.Build string String.eqb_spec.

(* --------------------------------------------------------------------- *)
(* 4.1  get_symbol_list                                                   *)
(* --------------------------------------------------------------------- *)

Module Symbols.

(** itertools.combinations_with_replacement(pool, r): the tuples of
    length r whose positions in the pool do not decrease, in
    lexicographic order of positions. *)
Fixpoint combinations_with_replacement (r : nat) (pool : seq nat)
  : seq (seq nat) :=
  if r is r'.+1 then
    (fix from (p : seq nat) : seq (seq nat) :=
       if p is x :: p' then
         [seq x :: t | t <- combinations_with_replacement r' p] ++ from p'
       else [::]) pool
  else [:: [::]].

(** Every element of a sequence together with the others, by position. *)
Fixpoint picks (T : Type) (s : seq T) : seq (T * seq T) :=
  if s is x :: s' then (x, s') :: [seq (y.1, x :: y.2) | y <- picks s']
  else [::].

Fixpoint perms_upto (T : Type) (n : nat) (s : seq T) : seq (seq T) :=
  if n is n'.+1 then
    flatten [seq [seq y.1 :: t | t <- perms_upto n' y.2] | y <- picks s]
  else [:: [::]].

(** itertools.permutations(idx): all orderings of the positions of idx,
    repeated values giving repeated tuples. *)
Definition permutations (T : Type) (s : seq T) : seq (seq T) :=
  perms_upto (size s) s.

(** str(d) for a decimal digit; larger numbers print with several digits. *)
Definition digit_char (d : nat) : ascii :=
  ascii_of_nat (48 + d).

Fixpoint str_of_nat_fuel (fuel n : nat) (acc : string) : string :=
  if fuel is fuel'.+1 then
    let acc' := String (digit_char (n %% 10)) acc in
    if n %/ 10 is 0 then acc' else str_of_nat_fuel fuel' (n %/ 10) acc'
  else acc.

Definition str (n : nat) : string := str_of_nat_fuel n.+1 n EmptyString.

Arguments str : simpl never.

(** "c_" + "".join(map(str, idx)) *)
Definition symbol_name (idx : seq nat) : string :=
  ("c_" ++ foldr (fun d acc => str d ++ acc) EmptyString idx)%string.

(** An entry of an object array that starts as np.zeros: the integer 0
    until a sympy Symbol is stored in it. *)
Inductive entry : Type :=
  | Zero
  | Symbol of string.

Definition entry_code (e : entry) : option string :=
  if e is Symbol n then Some n else None.
Definition entry_decode (o : option string) : entry :=
  if o is Some n then Symbol n else Zero.
Lemma entry_codeK : cancel entry_code entry_decode.
Proof. by case. Qed.

HB.instance Definition _ := Equality.copy entry (can_type entry_codeK).

(** A dense object array, read by index tuple. *)
Definition ndarray := seq nat -> entry.

Definition zeros : ndarray := fun _ => Zero.

(** c_arr[perm] = v *)
Definition setitem (a : ndarray) (idx : seq nat) (v : entry) : ndarray :=
  fun j => if j == idx then v else a j.

(** for perm in itertools.permutations(idx): c_arr[perm] = c_vec[n] *)
Definition write_perms (arr : ndarray) (idx : seq nat) : ndarray :=
  foldl (fun arr' perm => setitem arr' perm (Symbol (symbol_name idx)))
        arr (permutations idx).

Definition get_symbol_list (rank : nat) (dim : nat)
  : seq entry * ndarray :=
  let indices := combinations_with_replacement rank (iota 0 dim) in
  let c_vec := [seq Symbol (symbol_name idx) | idx <- indices] in
  let c_arr := foldl write_perms zeros indices in
  (c_vec, c_arr).

(** The index tuples of an array of shape [dim] * r. *)
Definition valid_index (r dim : nat) : pred (seq nat) :=
  fun i => (size i == r) && all (gtn dim) i.

(** The members of range(lo, lo + n). *)
Definition in_range (lo n : nat) : pred nat := fun x => lo <= x < lo + n.

(** np.swapaxes(c_arr, a, b): the entry at an index tuple is the entry
    of c_arr at the tuple with positions a and b exchanged. *)
Definition swap_index (a b : nat) (idx : seq nat) : seq nat :=
  [seq nth 0 idx (if i == a then b else if i == b then a else i)
  | i <- iota 0 (size idx)].

Definition swapaxes (arr : ndarray) (a b : nat) : ndarray :=
  fun idx => arr (swap_index a b idx).

End Symbols.

(* --------------------------------------------------------------------- *)
(* 4.3  get_diff_coeff                                                    *)
(* --------------------------------------------------------------------- *)

Module FiniteDifference.
Local Open Scope ring_scope.
Section Defs.
Variable F : fieldType.

(** np.linalg.solve(a, b) in exact arithmetic: the solution of a x = b
    when a is invertible, LinAlgError when a is singular. *)
Definition linalg_solve (m : nat) (a : 'M[F]_m) (b : 'cV[F]_m)
  : result 'cV[F]_m :=
  if a \in unitmx then Ok (invmx a *m b) else Raise LinAlgError.

(** a = np.vstack([hvec] * acc) ** exp, with exp[k][j] = k. *)
Definition stencil_powers (hvec : seq F) : 'M[F]_(size hvec) :=
  \matrix_(k, j) (nth 0 hvec j) ^+ k.

(** b = np.zeros(acc); b[n] = factorial(n) *)
Definition unit_rhs (acc n : nat) : 'cV[F]_acc :=
  \col_k (if (k : nat) == n then n`!%:R else 0).

(** np.column_stack of an empty list of arrays raises before anything
    else is built; b[n] raises when n is not an index of b. *)
Definition get_diff_coeff (hvec : seq F) (n : nat)
  : result 'cV[F]_(size hvec) :=
  let acc := size hvec in
  if acc == 0%N then Raise EmptyStack else
  let a := stencil_powers hvec in
  if (n < acc)%N then linalg_solve a (unit_rhs acc n)
  else Raise StencilIndex.

(** np.dot(coef, hvec ** k) *)
Definition dot_powers (hvec : seq F) (coef : 'cV[F]_(size hvec)) (k : nat) : F :=
  \sum_(j < size hvec) coef j 0 * (nth 0 hvec j) ^+ k.

(** The n-th derivative of x^k, evaluated at 0. *)
Definition monomial_deriv_at0 (k n : nat) : F :=
  (('X^k : {poly F})^`(n)).[0].

End Defs.
End FiniteDifference.

(* --------------------------------------------------------------------- *)
(* 4.2  find_eq_stress, get_strain_state_dict                             *)
(* --------------------------------------------------------------------- *)

Module StrainStates.
Local Open Scope ring_scope.
Section Defs.
Variable F : realFieldType.

(** A 3x3 array read by row and column; a list of them stands for an
    array of shape (N, 3, 3). *)
Definition mat3 : Type := nat -> nat -> F.

(** A row of six Voigt components. *)
Definition vec6 : Type := seq F.

Definition all9 (P : F -> bool) (m : mat3) : bool :=
  all (fun i => all (fun j => P (m i j)) (iota 0 3)) (iota 0 3).

Definition all9_2 (P : F -> F -> bool) (m m' : mat3) : bool :=
  all (fun i => all (fun j => P (m i j) (m' i j)) (iota 0 3)) (iota 0 3).

(** The literal 1e-10 (locked: the power is not meant to be unfolded by
    conversion, its value is used through lemmas). *)
Definition tol_1em10 : F := locked ((10%:R ^+ 10)^-1).

(** The literal 1e-8. *)
Definition atol_1em8 : F := locked ((10%:R ^+ 8)^-1).

(** Modelled from the spec: Tensor.zeroed(tol) (pymatgen.core.tensors),
    "zero entries with magnitude < tol". *)
Definition zeroed (tol : F) (m : mat3) : mat3 :=
  fun i j => if `|m i j| < tol then 0 else m i j.

(** Modelled from the spec: Strain(s).voigt (pymatgen.core.tensors,
    pymatgen.analysis.elasticity.strain), the 6-component form of a
    symmetric 3x3 strain, folding the index pairs 11, 22, 33, 23, 13, 12;
    the shear components of a strain are counted twice. *)
Definition strain_voigt (m : mat3) : vec6 :=
  [:: m 0%N 0%N; m 1%N 1%N; m 2%N 2%N;
      2%:R * m 2%N 1%N; 2%:R * m 2%N 0%N; 2%:R * m 1%N 0%N].

(** Modelled from the spec: Stress(s).voigt, the same folding without
    the doubling. *)
Definition stress_voigt (m : mat3) : vec6 :=
  [:: m 0%N 0%N; m 1%N 1%N; m 2%N 2%N; m 2%N 1%N; m 2%N 0%N; m 1%N 0%N].

Definition zero_mat3 : mat3 := fun _ _ => 0.

(** The strain with the single entry x at row 0, column 0. *)
Definition axial_strain (x : F) : mat3 :=
  fun i j => if (i == 0%N) && (j == 0%N) then x else 0.

(** A 3x3 array filled with one value (np.full((3, 3), x)). *)
Definition const_mat3 (x : F) : mat3 := fun _ _ => x.
Definition zeros6 : vec6 := nseq 6 0.

(** np.all(abs(strain) < tol) for one 3x3 strain *)
Definition is_zero_strain (tol : F) (e : mat3) : bool :=
  all9 (fun x => `|x| < tol) e.

(** np.allclose(s, s0, atol=1e-8, rtol=0) for one 3x3 stress *)
Definition close_stress (s s0 : mat3) : bool :=
  all9_2 (fun a b => `|a - b| <= atol_1em8) s s0.

(** stress_array[np.all(abs(strain_array) < tol, axis=(1, 2))] *)
Definition eq_candidates (strains stresses : seq mat3) (tol : F) : seq mat3 :=
  mask [seq is_zero_strain tol e | e <- strains] stresses.

(** What find_eq_stress returns: a row of np.array(stresses), which is a
    plain ndarray, or the Stress object built when no row qualifies. *)
Inductive eq_value : Type :=
  | PlainArray of mat3
  | StressObject of mat3.

(** v.voigt: an attribute of tensor objects, not of plain arrays. *)
Definition voigt_attribute (v : eq_value) : result vec6 :=
  if v is StressObject m then Ok (stress_voigt m) else Raise AttributeError.

(** find_eq_stress(strains, stresses, tol).  np.array of an empty list
    has one axis, so np.all(..., axis=(1, 2)) raises on it; the boolean
    mask must then be as long as the array of stresses. *)
Definition find_eq_stress (strains stresses : seq mat3) (tol : F)
  : M eq_value :=
  if strains is [::] then raise AxisError else
  if size stresses != size strains then raise MaskMismatch else
  let eq_stress := eq_candidates strains stresses tol in
  if eq_stress is s0 :: _ then
    let all_same := all (close_stress^~ s0) eq_stress in
    if (1 < size eq_stress)%N && ~~ all_same then raise AmbiguousEqStress
    else ret (PlainArray s0)
  else
    warn NoEqState ;;; ret (StressObject zero_mat3).

(** The stress-strain set stored under one strain state. *)
Record group : Type := Group { strains : seq vec6; stresses : seq vec6 }.

Definition group_pair (g : group) := (strains g, stresses g).
Definition pair_group (p : seq vec6 * seq vec6) := Group p.1 p.2.
Lemma group_pairK : cancel group_pair pair_group.
Proof. by case. Qed.
HB.instance Definition _ := Equality.copy group (can_type group_pairK).

(** A dict keyed by strain state, in insertion order. *)
Definition dict : Type := seq (vec6 * group).

Definition keys (d : dict) : seq vec6 := unzip1 d.

(** d[k] = g *)
Definition dict_set (d : dict) (k : vec6) (g : group) : dict :=
  if k \in keys d then [seq if kv.1 == k then (kv.1, g) else kv | kv <- d]
  else rcons d (k, g).

(** d[k] *)
Definition dict_get (d : dict) (k : vec6) : result group :=
  if [seq kv <- d | kv.1 == k] is kv :: _ then Ok kv.2 else Raise KeyError.

(** np.nonzero(v)[0].tolist() *)
Definition nonzero_inds (v : vec6) : seq nat :=
  [seq i <- iota 0 (size v) | nth 0 v i != 0].

(** template = np.zeros(6, dtype=bool); np.put(template, ind, True) *)
Definition template (ind : seq nat) : bitseq :=
  [seq i \in ind | i <- iota 0 6].

(** One row of (template == (np.abs(vstrains) > 1e-10)).all(axis=1) *)
Definition matches (ind : seq nat) (v : vec6) : bool :=
  template ind == [seq tol_1em10 < `|x| | x <- v].

Fixpoint argmin_from (best_i : nat) (best : F) (i : nat) (s : seq F) : nat :=
  if s is x :: s' then
    if x < best then argmin_from i x i.+1 s'
    else argmin_from best_i best i.+1 s'
  else best_i.

(** np.argmin on a nonempty array: the first position of the minimum. *)
Definition argmin (s : seq F) : nat :=
  if s is x :: s' then argmin_from 0 x 1 s' else 0%N.

(** col.argsort(): a permutation of the positions that puts col in
    ascending order (numpy leaves the order of ties open; positions of
    equal values keep their order here). *)
Definition argsort (col : seq F) : seq nat :=
  sort (fun i j => nth 0 col i <= nth 0 col j) (iota 0 (size col)).

(** rows[order] *)
Definition reorder (rows : seq vec6) (order : seq nat) : seq vec6 :=
  [seq nth [::] rows i | i <- order].

(** rows[:, i] *)
Definition column (rows : seq vec6) (i : nat) : seq F :=
  [seq nth 0 v i | v <- rows].

(** The "strain state" of a row: its ratio to its entry of least
    magnitude among the positions ind. *)
Definition strain_state_of (ind : seq nat) (last_strain : vec6) : vec6 :=
  let taken := [seq nth 0 last_strain i | i <- ind] in
  let min_nonzero_ind := argmin [seq `|x| | x <- taken] in
  let min_nonzero_val := nth 0 taken min_nonzero_ind in
  [seq x / min_nonzero_val | x <- last_strain].

(** The position, in a row, of its entry of least magnitude among the
    positions ind: ind[np.argmin(np.abs(np.take(row, ind)))]. *)
Definition min_nonzero_pos (ind : seq nat) (row : vec6) : nat :=
  nth 0%N ind (argmin [seq `|x| | x <- [seq nth 0 row i | i <- ind]]).

(** The end of the loop body: the zero strain state is appended when
    add_eq is set, then both arrays are sorted by the strain at ind[0]. *)
Definition build_group (mstrains mstresses : seq vec6)
    (veq_stress : option vec6) (sort_flag : bool) (ind : seq nat) : group :=
  let: (mstrains, mstresses) :=
    if veq_stress is Some veq then
      (rcons mstrains zeros6, rcons mstresses veq)
    else (mstrains, mstresses) in
  let: (mstrains, mstresses) :=
    if sort_flag then
      let order := argsort (column mstrains (head 0%N ind)) in
      (reorder mstrains order, reorder mstresses order)
    else (mstrains, mstresses) in
  Group mstrains mstresses.

(** The body of "for ind in independent". *)
Definition classify_state (vstrains vstresses : seq vec6)
    (veq_stress : option vec6) (sort_flag : bool)
    (d : dict) (ind : seq nat) : M dict :=
  let mode := [seq matches ind v | v <- vstrains] in
  if size vstresses != size vstrains then raise MaskMismatch else
  let mstresses := mask mode vstresses in
  let mstrains := mask mode vstrains in
  if mstrains is [::] then raise EmptyGroupIndex else
  let last_strain := last [::] mstrains in
  if ind is [::] then raise ArgminEmpty else
  let strain_state := strain_state_of ind last_strain in
  ret (dict_set d strain_state
         (build_group mstrains mstresses veq_stress sort_flag ind)).

(** get_strain_state_dict(strains, stresses, eq_stress, tol, add_eq, sort).
    [independent] is a Python set; it is visited here in the order of
    first appearance of each index set. *)
Definition get_strain_state_dict (strains stresses : seq mat3)
    (eq_stress : option mat3) (tol : F) (add_eq sort_flag : bool) : M dict :=
  let vstrains := [seq strain_voigt (zeroed tol e) | e <- strains] in
  let vstresses := [seq stress_voigt (zeroed tol s) | s <- stresses] in
  let independent := undup [seq nonzero_inds v | v <- vstrains] in
  veq_stress <-
    (if add_eq then
       if eq_stress is Some e then ret (Some (stress_voigt e))
       else e <- find_eq_stress strains stresses tol_1em10 ;;
            q <- lift (voigt_attribute e) ;;
            ret (Some q)
     else ret None) ;;
  foldM (classify_state vstrains vstresses veq_stress sort_flag)
        [::] independent.

(** strain_state.index(1), as diff_fit locates the axis of the stencil. *)
Definition stencil_axis (strain_state : vec6) : result nat :=
  if 1 \in strain_state then Ok (index 1 strain_state)
  else Raise IndexNotFound.

(** hvec = data["strains"][:, strain_state.index(1)] *)
Definition stencil (strain_state : vec6) (data : group) : result (seq F) :=
  rbind (stencil_axis strain_state)
        (fun axis => Ok (column (strains data) axis)).

End Defs.

Arguments tol_1em10 : simpl never.
Arguments atol_1em8 : simpl never.

End StrainStates.

(* --------------------------------------------------------------------- *)
(* 4.4, 4.5  generate_pseudo, diff_fit                                    *)
(* --------------------------------------------------------------------- *)

Module Fitting.
Import Symbols FiniteDifference StrainStates.
Local Open Scope ring_scope.
Section Defs.
Variable F : realFieldType.

(** np.linalg.pinv in exact arithmetic: the Moore-Penrose inverse, written
    from a rank factorisation A = B C as C^T (C C^T)^-1 (B^T B)^-1 B^T. *)
Definition pinv (m n : nat) (A : 'M[F]_(m, n)) : 'M[F]_(n, m) :=
  let B := col_base A in
  let C := row_base A in
  C^T *m invmx (C *m C^T) *m invmx (B^T *m B) *m B^T.

(** The sympy expressions that generate_pseudo builds are sums of terms
    coef * c * s^p, with c one of the symbols of get_symbol_list and s the
    scalar parameter sp.Symbol("s"). *)
Record term : Type := Term { coef : F; sym : string; spow : nat }.

Definition expr : Type := seq term.

(** An entry of c_arr read as an expression. *)
Definition expr_of_entry (e : entry) : expr :=
  if e is Symbol c then [:: Term 1 c 0] else [::].

(** e * (x * s) *)
Definition mul_xs (e : expr) (x : F) : expr :=
  [seq Term (coef t * x) (sym t) (spow t).+1 | t <- e].

(** np.dot(exps, strain_v) with strain_v = state * s: the last axis of
    exps is summed against the six entries of strain_v. *)
Definition dot_state (exps : seq nat -> expr) (state : vec6 F)
  : seq nat -> expr :=
  fun idx =>
    flatten [seq mul_xs (exps (rcons idx j)) (nth 0 state j) | j <- iota 0 6].

(** e / k for a number k *)
Definition div_num (e : expr) (k : F) : expr :=
  [seq Term (coef t / k) (sym t) (spow t) | t <- e].

(** sp.diff(e, s): terms free of s vanish. *)
Definition diff_s (e : expr) : expr :=
  [seq Term (coef t * (spow t)%:R) (sym t) (spow t).-1
  | t <- e & spow t != 0%N].

(** sp.diff(e, c) for a symbol c of c_vec, read as a number: the sum of
    the coefficients of c in the terms free of s (after its derivatives
    in s, generate_pseudo only has such terms). *)
Definition diff_sym (e : expr) (c : entry) : F :=
  if c is Symbol name then
    \sum_(t <- e | (sym t == name) && (spow t == 0%N)) coef t
  else 0.

(** s_arr[n] for one strain state and one degree. *)
Definition state_exprs (degree : nat) (state : vec6 F) : seq expr :=
  let c_arr := (get_symbol_list degree 6).2 in
  let exps := iter degree.-1 (fun exps => dot_state exps state)
                   (fun idx => expr_of_entry (c_arr idx)) in
  [seq iter degree.-1 diff_s (div_num (exps [:: i]) (degree.-1)`!%:R)
  | i <- iota 0 6].

(** len(c_vec) for one degree *)
Definition n_symbols (degree : nat) : nat :=
  size (get_symbol_list degree 6).1.

(** pseudo_mat for one degree: rows follow s_arr.ravel() (state n,
    component i at row 6 n + i), columns follow c_vec. *)
Definition pseudo_mat (strain_states : seq (vec6 F)) (degree : nat)
  : 'M[F]_(6 * size strain_states, n_symbols degree) :=
  \matrix_(r, q)
    diff_sym (nth [::] (state_exprs degree (nth [::] strain_states (r %/ 6)))
                  (r %% 6))
             (nth Zero (get_symbol_list degree 6).1 q).

(** generate_pseudo(strain_states, order)[0][degree - 2]: the entry of
    pseudo_inverses for one degree of range(2, order + 1).  (The second
    component, absent_symbols, is a diagnostic that diff_fit drops.) *)
Definition generate_pseudo (strain_states : seq (vec6 F)) (degree : nat)
  : 'M[F]_(n_symbols degree, 6 * size strain_states) :=
  pinv (pseudo_mat strain_states degree).

(** np.dot(coef, data["stresses"]) *)
Definition apply_coeff (hvec : seq F) (coef : 'cV[F]_(size hvec))
    (rows : seq (vec6 F)) : vec6 F :=
  [seq \sum_(j < size hvec) coef j 0 * nth 0 (nth [::] rows j) c
  | c <- iota 0 6].

(** The inner loop of diff_fit for one strain state:
    dei_dsi[_ord - 1, :, idx] for _ord in range(1, order). *)
Definition state_derivatives (order : nat) (kd : vec6 F * group F)
  : result (seq (vec6 F)) :=
  rbind (stencil kd.1 kd.2) (fun hvec =>
    collect [seq rbind (get_diff_coeff hvec ord)
                   (fun coef => Ok (apply_coeff coef (stresses kd.2)))
            | ord <- iota 1 order.-1]).

(** svec = np.ravel(dei_dsi[_ord - 1].T) *)
Definition svec (n_states : nat) (dei_dsi : seq (seq (vec6 F))) (ord : nat)
  : 'cV[F]_(6 * n_states) :=
  \col_r nth 0 (nth [::] (nth [::] dei_dsi (r %/ 6)) ord.-1) (r %% 6).

(** np.dot(m[_ord - 1], svec), as a list *)
Definition symbol_values (strain_states : seq (vec6 F))
    (dei_dsi : seq (seq (vec6 F))) (ord : nat) : seq F :=
  let sol := generate_pseudo strain_states ord.+1
             *m svec (size strain_states) dei_dsi ord in
  [seq sol q 0 | q <- enum 'I_(n_symbols ord.+1)].

(** dict(zip(cvec, values)).get(c): a later pair wins over an earlier one
    with the same key. *)
Definition cmap_get (cmap : seq (entry * F)) (c : entry) : option F :=
  foldl (fun acc kv => if kv.1 == c then Some kv.2 else acc) None cmap.

(** v_subs(carr, cmap), read at one index tuple; an entry that is not a
    key of cmap is not a number. *)
Definition v_subs (carr : ndarray) (cmap : seq (entry * F))
  : seq nat -> option F :=
  fun idx => cmap_get cmap (carr idx).

(** What else generate_pseudo(strain_states, order) can raise: for each
    degree of range(2, order + 1) it calls set.union with the symbol
    sets of the 6 * n_states expressions unpacked as its arguments,
    which is a call without argument when there is no strain state. *)
Definition generate_pseudo_check (strain_states : seq (vec6 F)) (order : nat)
  : result unit :=
  if (2 <= order)%N && (size strain_states == 0%N) then Raise EmptyUnion
  else Ok tt.

(** diff_fit(strains, stresses, eq_stress, order, tol).  A returned
    tensor Tensor.from_voigt(c) is given by its Voigt array c.
    dei_dsi = np.zeros((order - 1, 6, ...)) raises when order is 0. *)
Definition diff_fit (strains stresses : seq (mat3 F))
    (eq_stress : option (mat3 F)) (order : nat) (tol : F)
  : M (seq (seq nat -> option F)) :=
  strain_state_dict <-
    get_strain_state_dict strains stresses eq_stress tol true true ;;
  (if order is 0%N then raise NegativeDimensions else ret tt) ;;;
  dei_dsi <- lift (collect [seq state_derivatives order kd
                           | kd <- strain_state_dict]) ;;
  lift (generate_pseudo_check (keys strain_state_dict) order) ;;;
  ret [seq (let: (cvec, carr) := get_symbol_list ord.+1 6 in
            v_subs carr
              (zip cvec (symbol_values (keys strain_state_dict) dei_dsi ord)))
      | ord <- iota 1 order.-1].

(* ----- synthetic data for the round trip ----- *)

(** The Voigt position of the entry (i, j) of a symmetric 3x3 array
    (6 outside the array). *)
Definition voigt_index (i j : nat) : nat :=
  match i, j with
  | 0, 0 => 0 | 1, 1 => 1 | 2, 2 => 2
  | 1, 2 | 2, 1 => 3 | 0, 2 | 2, 0 => 4 | 0, 1 | 1, 0 => 5
  | _, _ => 6
  end%N.

(** The symmetric strain whose entries at Voigt position a are x. *)
Definition axis_strain (a : nat) (x : F) : mat3 F :=
  fun i j => if voigt_index i j == a then x else 0.

(** Its Voigt component along a: shear components count twice. *)
Definition voigt_magnitude (a : nat) (x : F) : F :=
  if (a < 3)%N then x else 2%:R * x.

(** The row with h at position a and 0 elsewhere. *)
Definition scaled_unit (a : nat) (h : F) : vec6 F :=
  [seq if j == a then h else 0 | j <- iota 0 6].

(** The symmetric 3x3 stress with the Voigt components w. *)
Definition stress_of_voigt (w : vec6 F) : mat3 F :=
  fun i j => nth 0 w (voigt_index i j).

(** C applied to a strain in Voigt notation. *)
Definition apply_tensor (C : nat -> nat -> F) (v : vec6 F) : vec6 F :=
  [seq \sum_(0 <= j < 6) C i j * nth 0 v j | i <- iota 0 6].

(** Column a of C scaled by h. *)
Definition scaled_column (C : nat -> nat -> F) (a : nat) (h : F) : vec6 F :=
  [seq C i a * h | i <- iota 0 6].

(** Samples given by an axis and a strain entry: the strains, and the
    stresses stress = C . strain. *)
Definition synthetic_strains (samples : seq (nat * F)) : seq (mat3 F) :=
  [seq axis_strain p.1 p.2 | p <- samples].

Definition synthetic_stresses (C : nat -> nat -> F) (samples : seq (nat * F))
  : seq (mat3 F) :=
  [seq stress_of_voigt (apply_tensor C (strain_voigt (axis_strain p.1 p.2)))
  | p <- samples].

(** The samples taken along the axis a, the axes that occur, and the
    dict that classifies the samples: one group per axis. *)
Definition axis_samples (samples : seq (nat * F)) (a : nat) : seq (nat * F) :=
  [seq p <- samples | p.1 == a].

Definition strain_row (p : nat * F) : vec6 F :=
  scaled_unit p.1 (voigt_magnitude p.1 p.2).

Definition stress_row (C : nat -> nat -> F) (p : nat * F) : vec6 F :=
  scaled_column C p.1 (voigt_magnitude p.1 p.2).

Definition axis_group (C : nat -> nat -> F) (samples : seq (nat * F))
    (a : nat) : group F :=
  build_group [seq strain_row p | p <- axis_samples samples a]
              [seq stress_row C p | p <- axis_samples samples a]
              (Some (zeros6 F)) true [:: a].

(** The distinct constants of a symmetric 6 x 6 array C, in the order of
    the symbols c_vec of get_symbol_list(2). *)
Definition constants2 (C : nat -> nat -> F) : 'cV[F]_(n_symbols 2) :=
  \col_q (let idx := nth [::] (combinations_with_replacement 2 (iota 0 6)) q in
          C (nth 0%N idx 0) (nth 0%N idx 1)).

(** Column a of C. *)
Definition tensor_column (C : nat -> nat -> F) (a : nat) : vec6 F :=
  [seq C i a | i <- iota 0 6].

Definition present_axes (samples : seq (nat * F)) : seq nat :=
  undup [seq p.1 | p <- samples].

Definition synthetic_dict (C : nat -> nat -> F) (samples : seq (nat * F))
  : dict F :=
  [seq (scaled_unit a 1, axis_group C samples a) | a <- present_axes samples].

End Defs.
End Fitting.

(* --------------------------------------------------------------------- *)
(* NthOrderElasticTensor.__new__, ElasticTensor.__new__                   *)
(* --------------------------------------------------------------------- *)

Module Tensors.
Section Defs.
Variable F : realFieldType.

(** The arrays handed to the constructors, with what the generic tensor
    container (pymatgen.core.tensors, not part of this module) reads
    from them: the number of axes, whether every axis has length 3, and
    the test of the Voigt index-pair symmetries within a tolerance. *)
Variable ndarray : Type.
Variable ndim : ndarray -> nat.
Variable all_axes_3 : ndarray -> bool.
Variable is_voigt_symmetric : ndarray -> F -> bool.

(** Modelled from the spec: Tensor.__new__(input_array, check_rank), the
    "rank checking" of the generic tensor container: the array is kept
    as it is, obj.rank is its number of axes, a check_rank that is set
    and differs from it is rejected, and so is an axis of length other
    than 3. *)
Definition Tensor_new (input_array : ndarray) (check_rank : option nat)
  : result ndarray :=
  let mismatch :=
    if check_rank is Some r then (r != 0%N) && (r != ndim input_array)
    else false in
  if mismatch then Raise RankMismatch
  else if all_axes_3 input_array then Ok input_array
  else Raise BadShape.

(** obj.rank *)
Definition rank (obj : ndarray) : nat := ndim obj.

(** NthOrderElasticTensor.__new__(cls, input_array, check_rank, tol) *)
Definition NthOrderElasticTensor_new (input_array : ndarray)
    (check_rank : option nat) (tol : F) : M ndarray :=
  obj <- lift (Tensor_new input_array check_rank) ;;
  if rank obj %% 2 != 0 then raise OddRank else
  (if ~~ is_voigt_symmetric obj tol then warn NotVoigtSymmetric else ret tt) ;;;
  ret obj.

(** ElasticTensor.__new__(cls, input_array, tol) *)
Definition ElasticTensor_new (input_array : ndarray) (tol : F) : M ndarray :=
  NthOrderElasticTensor_new input_array (Some 4%N) tol.

End Defs.
End Tensors.

(* --------------------------------------------------------------------- *)
(* ElasticTensor.from_independent_strains                                 *)
(* --------------------------------------------------------------------- *)

Module IndependentStrains.
Import StrainStates.
Local Open Scope ring_scope.
Section Defs.
Variable F : realFieldType.

(** np.polyfit(x, y, 1)[0], the slope of the least-squares line through
    the points (x, y); numpy computes it, its value is not looked into. *)
Variable polyfit_slope : seq F -> seq F -> F.

(** tuple(np.eye(6)[i]) *)
Definition unit_state (i : nat) : vec6 F :=
  [seq (if j == i then 1 else 0) | j <- iota 0 6].

(** strain_states = [tuple(ss) for ss in np.eye(6)] *)
Definition strain_states : seq (vec6 F) := [seq unit_state i | i <- iota 0 6].

(** A 6x6 array in Voigt notation. *)
Definition voigt66 : Type := seq (seq F).

(** One pass of "for ii in range(6)": row ii of c_ij. *)
Definition fit_row (ss_dict : dict F) (ii : nat) : result (seq F) :=
  if dict_get ss_dict (nth [::] strain_states ii) is Ok data then
    Ok [seq polyfit_slope (column (strains data) ii)
                          (column (stresses data) jj) | jj <- iota 0 6]
  else Raise KeyError.

Fixpoint all_rows (rows : seq (result (seq F))) : result voigt66 :=
  if rows is r :: rows' then
    match r, all_rows rows' with
    | Ok row, Ok c => Ok (row :: c)
    | Raise e, _ => Raise e
    | _, Raise e => Raise e
    end
  else Ok [::].

(** The fit proper: c_ij from the dict, the vasp convention, and the
    zeroing of the result.  The tensor cls.from_voigt(c_ij) is given by
    its Voigt array; zeroed(tol) acts on its entries. *)
Definition voigt_fit (ss_dict : dict F) (vasp : bool) (tol : F)
  : result voigt66 :=
  if all_rows [seq fit_row ss_dict ii | ii <- iota 0 6] is Ok c_ij then
    let c_ij :=
      if vasp then [seq [seq x * (- (10%:R^-1)) | x <- row] | row <- c_ij]
      else c_ij in
    Ok [seq [seq (if `|x| < tol then 0 else x) | x <- row] | row <- c_ij]
  else Raise KeyError.

(** The axes i whose unit state is not a key:
    set(strain_states) - set(ss_dict). *)
Definition missing_states (ss_dict : dict F) : seq nat :=
  [seq i <- iota 0 6 | unit_state i \notin keys ss_dict].

(** set(ss_dict) - set(strain_states) *)
Definition extra_states (ss_dict : dict F) : seq (vec6 F) :=
  [seq k <- keys ss_dict | k \notin strain_states].

(** ElasticTensor.from_independent_strains(strains, stresses, eq_stress,
    vasp, tol) *)
Definition from_independent_strains (strains stresses : seq (mat3 F))
    (eq_stress : option (mat3 F)) (vasp : bool) (tol : F) : M voigt66 :=
  ss_dict <- get_strain_state_dict strains stresses eq_stress
               (tol_1em10 F) true true ;;
  if missing_states ss_dict != [::] then
    raise (MissingStrainStates (missing_states ss_dict))
  else
    (if (0 < size (extra_states ss_dict))%N then warn ExtraStrainStates
     else ret tt) ;;;
    lift (voigt_fit ss_dict vasp tol).

(** The dict without the keys that are not unit states. *)
Definition required_only (ss_dict : dict F) : dict F :=
  [seq kv <- ss_dict | kv.1 \in strain_states].

End Defs.
End IndependentStrains.

(* --------------------------------------------------------------------- *)
(* 4.6  ElasticTensor: moduli and structure-dependent properties          *)
(* --------------------------------------------------------------------- *)

Module ElasticProperties.
Local Open Scope ring_scope.
Section Defs.
Variable F : realFieldType.

(** x ** y on floats, the constant np.pi, and the unit conversion factor
    Unit("eV ang^-3").get_conversion_factor(Unit("GPa")). *)
Variable rpow : F -> F -> F.
Variable pi : F.
Variable eV_A3_to_GPa : F.

(** What the properties read from a pymatgen Structure. *)
Record structure : Type := Structure {
  n_sites : nat;               (* len(structure) *)
  num_atoms : F;               (* structure.composition.num_atoms *)
  weight : F;                  (* float(structure.composition.weight) *)
  volume : F;                  (* structure.volume *)
  atomic_masses : seq F        (* spec.atomic_mass for spec in structure.species *)
}.

(** A second-order elastic tensor, by its 6x6 Voigt array self.voigt. *)
Definition tensor : Type := 'M[F]_6.

Definition at6 (v : 'M[F]_6) (i j : nat) : F := v (inord i) (inord j).

(** v[:3, :3].sum() *)
Definition block_sum (v : 'M[F]_6) : F :=
  \sum_(0 <= i < 3) \sum_(0 <= j < 3) at6 v i j.
(** v[:3, :3].trace() *)
Definition block_trace (v : 'M[F]_6) : F := \sum_(0 <= i < 3) at6 v i i.
(** np.triu(v[:3, :3]).sum() *)
Definition block_triu_sum (v : 'M[F]_6) : F :=
  \sum_(0 <= i < 3) \sum_(i <= j < 3) at6 v i j.
(** v[3:, 3:].trace() *)
Definition shear_trace (v : 'M[F]_6) : F := \sum_(3 <= i < 6) at6 v i i.

(** np.linalg.inv in exact arithmetic. *)
Definition linalg_inv (v : 'M[F]_6) : M 'M[F]_6 :=
  if v \in unitmx then ret (invmx v) else raise LinAlgError.

(** self.compliance_tensor.voigt *)
Definition compliance_voigt (t : tensor) : M 'M[F]_6 := linalg_inv t.

Definition k_voigt (t : tensor) : M F := ret (block_sum t / 9%:R).

Definition g_voigt (t : tensor) : M F :=
  ret ((2%:R * block_trace t - block_triu_sum t + 3%:R * shear_trace t)
       / 15%:R).

Definition k_reuss (t : tensor) : M F :=
  s <- compliance_voigt t ;; ret (1 / block_sum s).

Definition g_reuss (t : tensor) : M F :=
  s1 <- compliance_voigt t ;;
  s2 <- compliance_voigt t ;;
  s3 <- compliance_voigt t ;;
  ret (15%:R / (8%:R * block_trace s1 - 4%:R * block_triu_sum s2
                + 3%:R * shear_trace s3)).

Definition k_vrh (t : tensor) : M F :=
  kv <- k_voigt t ;; kr <- k_reuss t ;; ret (2%:R^-1 * (kv + kr)).

Definition g_vrh (t : tensor) : M F :=
  gv <- g_voigt t ;; gr <- g_reuss t ;; ret (2%:R^-1 * (gv + gr)).

Definition y_mod (t : tensor) : M F :=
  k <- k_vrh t ;; g <- g_vrh t ;; k' <- k_vrh t ;; g' <- g_vrh t ;;
  ret (9%:R * 10%:R ^+ 9 * k * g * eV_A3_to_GPa / (3%:R * k' + g')).

(** self.k_vrh < 0 or self.g_vrh < 0 *)
Definition is_unphysical (t : tensor) : M bool :=
  k <- k_vrh t ;;
  if k < 0 then ret true else g <- g_vrh t ;; ret (g < 0).

(** The decorator raise_if_unphysical. *)
Definition raise_if_unphysical (func : tensor -> structure -> M F)
  : tensor -> structure -> M F :=
  fun self st =>
    unphysical <- is_unphysical self ;;
    if unphysical then raise Unphysical else func self st.

Definition mass_density (st : structure) : F :=
  16605%:R / 10%:R * (n_sites st)%:R * weight st / (num_atoms st * volume st).

Definition site_density (st : structure) : F :=
  10%:R ^+ 30 * (n_sites st)%:R / volume st.

Definition avg_mass (st : structure) : F :=
  16605%:R / 10%:R ^+ 31 * (\sum_(m <- atomic_masses st) m) / num_atoms st.

Definition k_B : F := 13806%:R / 10%:R ^+ 27.       (* 1.3806e-23 *)

Definition trans_v : tensor -> structure -> M F :=
  raise_if_unphysical (fun self st =>
    g <- g_vrh self ;;
    if g < 0 then raise SoundVelocityUndefined else
    g' <- g_vrh self ;;
    ret (rpow (10%:R ^+ 9 * g' / mass_density st) 2%:R^-1)).

Definition long_v : tensor -> structure -> M F :=
  raise_if_unphysical (fun self st =>
    g <- g_vrh self ;;
    if g < 0 then raise SoundVelocityUndefined else
    k <- k_vrh self ;; g' <- g_vrh self ;;
    ret (rpow (10%:R ^+ 9 * (k + 4%:R / 3%:R * g') / mass_density st)
              2%:R^-1)).

Definition snyder_ac : tensor -> structure -> M F :=
  raise_if_unphysical (fun self st =>
    vl <- long_v self st ;; vt <- trans_v self st ;;
    ret (38483%:R / 10%:R ^+ 5 * avg_mass st
         * rpow ((vl + 2%:R * vt) / 3%:R) 3%:R
         / (300%:R * rpow (site_density st) (- (2%:R / 3%:R))
            * rpow (n_sites st)%:R (1 / 3%:R)))).

Definition snyder_opt : tensor -> structure -> M F :=
  raise_if_unphysical (fun self st =>
    vl <- long_v self st ;; vt <- trans_v self st ;;
    ret (166914%:R / 10%:R ^+ 28 * (vl + 2%:R * vt) / 3%:R
         / rpow (site_density st) (- (2%:R / 3%:R))
         * (1 - rpow (n_sites st)%:R (- (1 / 3%:R))))).

Definition snyder_total : tensor -> structure -> M F :=
  raise_if_unphysical (fun self st =>
    ac <- snyder_ac self st ;; opt <- snyder_opt self st ;; ret (ac + opt)).

Definition clarke_thermalcond : tensor -> structure -> M F :=
  raise_if_unphysical (fun self st =>
    y <- y_mod self ;;
    ret (87%:R / 100%:R * k_B * rpow (avg_mass st) (- (2%:R / 3%:R))
         * rpow (mass_density st) (1 / 6%:R) * rpow y 2%:R^-1)).

Definition cahill_thermalcond : tensor -> structure -> M F :=
  raise_if_unphysical (fun self st =>
    vl <- long_v self st ;; vt <- trans_v self st ;;
    ret (k_B / (248%:R / 100%:R) * rpow (site_density st) (2%:R / 3%:R)
         * (vl + 2%:R * vt))).

Definition agne_diffusive_thermalcond : tensor -> structure -> M F :=
  raise_if_unphysical (fun self st =>
    vt <- trans_v self st ;; vl <- long_v self st ;;
    ret (76%:R / 100%:R * rpow (site_density st) (2%:R / 3%:R) * k_B
         * (1 / 3%:R * (2%:R * vt + vl)))).

Definition debye_temperature : tensor -> structure -> M F :=
  raise_if_unphysical (fun self st =>
    let v0 := volume st / 10%:R ^+ 30 / (n_sites st)%:R in
    vl <- long_v self st ;; vt <- trans_v self st ;;
    let vm := rpow 3%:R (1 / 3%:R)
              * rpow (1 / rpow vl 3%:R + 2%:R / rpow vt 3%:R) (- (1 / 3%:R)) in
    ret (105457%:R / 10%:R ^+ 39 / (138065%:R / 10%:R ^+ 28) * vm
         * rpow (6%:R * rpow pi 2%:R / v0) (1 / 3%:R))).

Definition universal_anisotropy (t : tensor) : M F :=
  gv <- g_voigt t ;; gr <- g_reuss t ;; kv <- k_voigt t ;; kr <- k_reuss t ;;
  ret (5%:R * gv / gr + kv / kr - 6%:R).

Definition homogeneous_poisson (t : tensor) : M F :=
  g <- g_vrh t ;; k <- k_vrh t ;; g' <- g_vrh t ;; k' <- k_vrh t ;;
  ret ((1 - 2%:R / 3%:R * g / k) / (2%:R + 2%:R / 3%:R * g' / k')).

(** The values of the returned dict. *)
Inductive pyval : Type :=
  | PyNone
  | PyFloat of F
  | PyStructure of structure.

Definition pydict : Type := seq (string * pyval).

(** d[k] = v *)
Definition py_set (d : pydict) (k : string) (v : pyval) : pydict :=
  if k \in unzip1 d then [seq if kv.1 == k then (kv.1, v) else kv | kv <- d]
  else rcons d (k, v).

(** d.get(k) *)
Definition py_get (d : pydict) (k : string) : option pyval :=
  if [seq kv <- d | kv.1 == k] is kv :: _ then Some kv.2 else None.

(** d.update(other) *)
Definition py_update (d other : pydict) : pydict :=
  foldl (fun acc kv => py_set acc kv.1 kv.2) d other.

Definition property_dict (t : tensor) : M pydict :=
  kv <- k_voigt t ;; kr <- k_reuss t ;; k <- k_vrh t ;;
  gv <- g_voigt t ;; gr <- g_reuss t ;; g <- g_vrh t ;;
  ua <- universal_anisotropy t ;; hp <- homogeneous_poisson t ;;
  y <- y_mod t ;;
  ret [:: ("k_voigt"%string, PyFloat kv); ("k_reuss"%string, PyFloat kr);
          ("k_vrh"%string, PyFloat k); ("g_voigt"%string, PyFloat gv);
          ("g_reuss"%string, PyFloat gr); ("g_vrh"%string, PyFloat g);
          ("universal_anisotropy"%string, PyFloat ua);
          ("homogeneous_poisson"%string, PyFloat hp);
          ("y_mod"%string, PyFloat y)].

Definition s_props : seq string :=
  [:: "trans_v"; "long_v"; "snyder_ac"; "snyder_opt"; "snyder_total";
      "clarke_thermalcond"; "cahill_thermalcond"; "debye_temperature"]%string.

(** {prop: getattr(self, prop)(structure) for prop in s_props} *)
Definition structure_props (t : tensor) (st : structure) : M pydict :=
  v1 <- trans_v t st ;; v2 <- long_v t st ;; v3 <- snyder_ac t st ;;
  v4 <- snyder_opt t st ;; v5 <- snyder_total t st ;;
  v6 <- clarke_thermalcond t st ;; v7 <- cahill_thermalcond t st ;;
  v8 <- debye_temperature t st ;;
  ret [seq (pv.1, PyFloat pv.2)
      | pv <- zip s_props [:: v1; v2; v3; v4; v5; v6; v7; v8]].

Definition get_structure_property_dict (t : tensor) (st : structure)
    (include_base_props ignore_errors : bool) : M pydict :=
  sp_dict <-
    (if ignore_errors then
       unphysical <- is_unphysical t ;;
       if unphysical then ret [seq (prop, PyNone) | prop <- s_props]
       else structure_props t st
     else structure_props t st) ;;
  let sp_dict := py_set sp_dict "structure"%string (PyStructure st) in
  if include_base_props then
    props <- property_dict t ;; ret (py_update sp_dict props)
  else ret sp_dict.

(** The methods decorated with raise_if_unphysical. *)
Definition guarded_methods : seq (tensor -> structure -> M F) :=
  [:: trans_v; long_v; snyder_ac; snyder_opt; snyder_total;
      clarke_thermalcond; cahill_thermalcond; agne_diffusive_thermalcond;
      debye_temperature].

End Defs.
End ElasticProperties.

(* --------------------------------------------------------------------- *)
(* ElasticTensor.from_pseudoinverse                                       *)
(* --------------------------------------------------------------------- *)

Module PseudoInverseFit.
Import StrainStates Fitting.
Local Open Scope ring_scope.
Section Defs.
Variable F : realFieldType.

(** The UserWarning of from_pseudoinverse ("Pseudo-inverse fitting of
    Strain/Stress lists may yield questionable results from vasp data,
    use with caution."). *)
Inductive caution : Type := QuestionableFit.

(** What numpy raises inside from_pseudoinverse: np.linalg.pinv on the
    array of an empty list, and np.dot on arrays whose shapes are not
    aligned. *)
Inductive fit_error : Type := EmptyStrains | ShapesNotAligned.

Inductive fit_result : Type :=
  | Fit of 'M[F]_6
  | FitError of fit_error.

(** np.array(rows) for n rows of six components. *)
Definition voigt_rows (n : nat) (rows : seq (vec6 F)) : 'M[F]_(n, 6) :=
  \matrix_(i, j) nth 0 (nth [::] rows i) j.

(** ElasticTensor.from_pseudoinverse(strains, stresses).  The tensor
    cls.from_voigt(voigt_fit) is given by its Voigt array voigt_fit. *)
Definition from_pseudoinverse (strains stresses : seq (mat3 F))
  : seq caution * fit_result :=
  let vstresses := [seq stress_voigt s | s <- stresses] in
  let vstrains := [seq strain_voigt e | e <- strains] in
  ([:: QuestionableFit],
   if strains is [::] then FitError EmptyStrains
   else if size stresses != size strains then FitError ShapesNotAligned
   else
     let n := size strains in
     Fit (pinv (voigt_rows n vstrains) *m voigt_rows n vstresses)^T).

End Defs.
End PseudoInverseFit.


(* ===================================================================== *)
(* Properties                                                             *)
(* ===================================================================== *)

Module SymbolsTheory.
Import Symbols.

Lemma cwr_cons r x p :
  combinations_with_replacement r.+1 (x :: p) =
  [seq x :: t | t <- combinations_with_replacement r (x :: p)]
    ++ combinations_with_replacement r.+1 p.
Proof. by []. Qed.

Lemma cwr_nil r : combinations_with_replacement r.+1 [::] = [::].
Proof. by []. Qed.

Lemma size_cwr r pool :
  size (combinations_with_replacement r pool) = 'C((size pool + r).-1, r).
Proof.
elim: r pool => [|r IHr] pool; first by rewrite bin0.
elim: pool => [|x p IHp]; first by rewrite cwr_nil add0n /= bin_small.
rewrite cwr_cons size_cat size_map IHr IHp /=.
by rewrite !addnS /= binS addnC.
Qed.

Lemma mem_map_cons (T : eqType) (x h : T) (t : seq T) (S : seq (seq T)) :
  (h :: t \in [seq x :: u | u <- S]) = (h == x) && (t \in S).
Proof.
elim: S => [|u S IH] /=; first by rewrite !in_nil andbF.
by rewrite !in_cons IH eqseq_cons andb_orr.
Qed.

Lemma nil_notin_map_cons (T : eqType) (x : T) (S : seq (seq T)) :
  ([::] \in [seq x :: u | u <- S]) = false.
Proof. by elim: S => [|u S IH] //=; rewrite in_cons IH. Qed.

(** The tuples enumerated over range(lo, lo+n) are the sorted tuples of
    the right length over that range. *)
Lemma mem_cwr r lo n t :
  (t \in combinations_with_replacement r (iota lo n)) =
  [&& size t == r, sorted leq t & all (in_range lo n) t].
Proof.
elim: r lo n t => [|r IHr] lo n t.
  by rewrite /= mem_seq1; case: t.
elim: n lo => [|n IHn] lo.
  rewrite cwr_nil in_nil; case: t => [|h t] //=.
  by rewrite /in_range addn0 leqNgt; case: (h < lo); rewrite /= !andbF.
rewrite -[iota _ _]/(lo :: iota lo.+1 n) cwr_cons mem_cat {}IHn.
case: t => [|h t]; first by rewrite nil_notin_map_cons.
rewrite mem_map_cons -[lo :: iota _ _]/(iota lo n.+1) IHr /= eqSS.
case: (size t == r) => //=; rewrite ?andbF //.
have in_rangeS x : in_range lo.+1 n x -> in_range lo n.+1 x.
  by rewrite /in_range addSnnS => /andP[/ltnW -> ->].
apply/idP/idP.
  case/orP => [/and3P[/eqP -> sort_t all_t]|/and3P[-> lo_h all_t]]; last first.
    by rewrite (in_rangeS _ lo_h) (sub_all in_rangeS all_t).
  have ge_lo : all (leq lo) t by apply: sub_all all_t => x /andP[].
  by rewrite (path_min_sorted ge_lo) sort_t all_t /in_range leqnn -addSnnS leq_addr.
case/and3P => path_t /andP[lo_h h_hi] all_t.
have all_h : all (leq h) t by apply: order_path_min path_t; apply: leq_trans.
have [eq_h|ne_h] := eqVneq h lo.
  by rewrite (path_sorted path_t) all_t.
have lt_h : lo < h by rewrite ltn_neqAle eq_sym ne_h.
rewrite path_t /in_range lt_h addSnnS h_hi /=.
apply/allP => x x_t; have /andP[_ ->] := allP all_t _ x_t.
by rewrite (leq_trans lt_h) ?(allP all_h).
Qed.

Lemma cwr_uniq r lo n : uniq (combinations_with_replacement r (iota lo n)).
Proof.
elim: r lo n => [|r IHr] lo n //.
elim: n lo => [|n IHn] lo //.
rewrite -[iota _ _]/(lo :: iota lo.+1 n) cwr_cons cat_uniq IHn andbT.
have inj_cons : injective (cons lo) by move=> u v [].
rewrite -[lo :: iota _ _]/(iota lo n.+1) (map_inj_uniq inj_cons) IHr andTb.
apply/hasPn => t; rewrite mem_cwr => /and3P[_ _ all_t].
case: t all_t => [|h t]; first by rewrite nil_notin_map_cons.
rewrite /= /in_range => /andP[/andP[lo_h _] _].
by rewrite mem_map_cons; case: eqP lo_h => // ->; rewrite ltnn.
Qed.

Section Permutations.
Variable T : eqType.
Implicit Types (s t : seq T).

Lemma picks_perm s y rest : (y, rest) \in picks s -> perm_eq s (y :: rest).
Proof.
elim: s y rest => [|x s IH] y rest //=.
rewrite in_cons => /orP[/eqP[-> ->] //|/mapP[[z r] /IH perm_s [-> ->]]] /=.
rewrite -(perm_cons x) in perm_s; apply: perm_trans perm_s _.
by rewrite (perm_catCA [:: x] [:: z] r).
Qed.

Lemma picks_mem s y : y \in s -> exists rest, (y, rest) \in picks s.
Proof.
elim: s => [|x s IH] //=; rewrite in_cons => /predU1P[->|/IH[rest in_rest]].
  by exists s; rewrite in_cons eqxx.
exists (x :: rest); rewrite in_cons; apply/orP; right.
by apply/mapP; exists (y, rest).
Qed.

Lemma mem_perms_upto n s t :
  size s = n -> (t \in perms_upto n s) = perm_eq s t.
Proof.
elim: n s t => [|n IHn] s t size_s.
  rewrite (size0nil size_s) /= mem_seq1.
  by apply/eqP/idP => [-> //|]; rewrite perm_sym => /perm_nilP.
apply/idP/idP => [/flatten_mapP[[y rest] in_picks /mapP[t' in_t' ->]]|perm_st].
  have perm_s := picks_perm in_picks.
  have size_rest : size rest = n.
    by move/perm_size: perm_s; rewrite size_s /= => -[].
  rewrite (IHn _ _ size_rest) in in_t'.
  by apply: perm_trans perm_s _; rewrite perm_cons.
case: t perm_st => [|y t'] perm_st.
  by move/perm_size: perm_st; rewrite size_s.
have y_s : y \in s by rewrite (perm_mem perm_st) mem_head.
have [rest in_picks] := picks_mem y_s.
have perm_s := picks_perm in_picks.
have size_rest : size rest = n.
  by move/perm_size: perm_s; rewrite size_s /= => -[].
apply/flatten_mapP; exists (y, rest) => //=.
apply/mapP; exists t' => //; rewrite (IHn _ _ size_rest).
by rewrite -(perm_cons y) -(permPl perm_s).
Qed.

Lemma mem_permutations s t : (t \in permutations s) = perm_eq s t.
Proof. exact: mem_perms_upto. Qed.

End Permutations.

Lemma str_digit d : d < 10 -> str d = String (digit_char d) EmptyString.
Proof. by do 10?[case: d => [|d] //]. Qed.

Lemma digit_char_inj : {in gtn 10 &, injective digit_char}.
Proof.
move=> d d'; rewrite !inE.
by do 10?[case: d => [|d] //]; do 10?[case: d' => [|d'] //].
Qed.

Lemma symbol_name_inj :
  {in [pred idx | all (gtn 10) idx] &, injective symbol_name}.
Proof.
move=> i j; rewrite !inE /symbol_name => all_i all_j [].
elim: i j all_i all_j => [|d i IH] [|d' j] //=.
- by move=> _ /andP[/str_digit -> _].
- by case/andP=> /str_digit ->.
move=> /andP[lt_d all_i] /andP[lt_d' all_j]; rewrite !str_digit //=.
by case=> eq_d /IH-> //; rewrite (digit_char_inj _ _ eq_d).
Qed.

Lemma setitem_foldl (v : entry) (L : seq (seq nat)) arr i :
  foldl (fun arr' perm => setitem arr' perm v) arr L i =
  if i \in L then v else arr i.
Proof.
elim: L arr => [|p L IH] arr //=.
by rewrite IH in_cons /setitem; case: (i \in L); rewrite ?orbT ?orbF.
Qed.

Lemma write_perms_spec arr idx i :
  write_perms arr idx i =
  if perm_eq idx i then Symbol (symbol_name idx) else arr i.
Proof. by rewrite /write_perms setitem_foldl mem_permutations. Qed.

Lemma sorted_perm_sort (s t : seq nat) :
  sorted leq s -> perm_eq s t -> s = sort leq t.
Proof.
move=> sorted_s /(perm_sortP leq_total leq_trans anti_leq) <-.
by rewrite sorted_sort //; apply: leq_trans.
Qed.

Lemma fold_write_spec idxs arr i :
  all (sorted leq) idxs ->
  foldl write_perms arr idxs i =
  if has (perm_eq^~ i) idxs then Symbol (symbol_name (sort leq i)) else arr i.
Proof.
elim: idxs arr => [|x idxs IH] arr //= /andP[sorted_x sorted_idxs].
rewrite IH // write_perms_spec; case: (has _ idxs); rewrite ?orbT //= orbF.
by case: ifP => // /(sorted_perm_sort sorted_x) <-.
Qed.

Lemma in_range0 n : in_range 0 n =1 gtn n.
Proof. by move=> x; rewrite /in_range leq0n add0n. Qed.

Lemma has_perm_cwr r dim i :
  has (perm_eq^~ i) (combinations_with_replacement r (iota 0 dim)) =
  valid_index r dim i.
Proof.
apply/hasP/andP => [[x]|[/eqP size_i all_i]].
  rewrite mem_cwr (eq_all (in_range0 dim)) => /and3P[/eqP <- _ all_x] perm_xi.
  by rewrite -(perm_size perm_xi) eqxx -(perm_all _ perm_xi).
exists (sort leq i); last by rewrite /= perm_sort.
rewrite mem_cwr size_sort size_i eqxx (sort_sorted leq_total) /=.
by rewrite (eq_all (in_range0 dim)) all_sort.
Qed.

Lemma cwr_sorted r lo n :
  all (sorted leq) (combinations_with_replacement r (iota lo n)).
Proof. by apply/allP => t; rewrite mem_cwr => /and3P[]. Qed.

(** The dense array in closed form: an index tuple of the right shape
    holds the symbol named after its sorted rearrangement. *)
Lemma c_arr_spec r dim i :
  (get_symbol_list r dim).2 i =
  if valid_index r dim i then Symbol (symbol_name (sort leq i)) else Zero.
Proof.
rewrite /get_symbol_list /=.
by rewrite (fold_write_spec _ _ (cwr_sorted _ _ _)) has_perm_cwr.
Qed.

Lemma perm_swap_index a b idx :
  a < size idx -> b < size idx -> perm_eq (swap_index a b idx) idx.
Proof.
move=> lt_a lt_b; set n := size idx.
pose tr i := if i == a then b else if i == b then a else i.
have trK : involutive tr.
  move=> i; rewrite /tr; have [->|ne_a] := eqVneq i a.
    by rewrite eqxx; case: eqP.
  by have [->|ne_b] := eqVneq i b; rewrite ?eqxx // (negPf ne_a) (negPf ne_b).
have tr_lt i : i < n -> tr i < n.
  by rewrite /tr; case: eqP => // _; case: eqP.
have perm_tr : perm_eq [seq tr i | i <- iota 0 n] (iota 0 n).
  apply: uniq_perm; rewrite ?(map_inj_uniq (can_inj trK)) ?iota_uniq //.
  move=> i; rewrite mem_iota /= add0n; apply/mapP/idP => [[j]|lt_i].
    by rewrite mem_iota /= add0n => /tr_lt lt_j ->.
  by exists (tr i); rewrite ?trK // mem_iota /= add0n tr_lt.
have -> : swap_index a b idx = [seq nth 0 idx j | j <- [seq tr i | i <- iota 0 n]].
  by rewrite /swap_index -map_comp.
rewrite -[X in perm_eq _ X](mkseq_nth 0) /mkseq -/n.
exact: perm_map.
Qed.

Lemma size_swap_index a b idx : size (swap_index a b idx) = size idx.
Proof. by rewrite /swap_index size_map size_iota. Qed.

Lemma valid_index_perm r dim i j :
  perm_eq i j -> valid_index r dim i = valid_index r dim j.
Proof.
by move=> perm_ij; rewrite /valid_index (perm_size perm_ij) (perm_all _ perm_ij).
Qed.

Lemma c_arr_perm r dim i j :
  perm_eq i j -> (get_symbol_list r dim).2 i = (get_symbol_list r dim).2 j.
Proof.
move=> perm_ij; rewrite !c_arr_spec (valid_index_perm _ _ perm_ij).
by have /(perm_sortP leq_total leq_trans anti_leq) -> := perm_ij.
Qed.

(** C2.  For every rank r, get_symbol_list(r) (dim = 6) returns a vector
    of exactly C(r+5, r) pairwise distinct symbols; in the dense array two
    index tuples (length r, entries below 6) hold the same entry, which
    is a symbol, exactly when one is a permutation of the other; and
    exchanging any two axes of the dense array leaves it unchanged. *)
Theorem get_symbol_list_symmetry (r : nat) :
  let: (c_vec, c_arr) := get_symbol_list r 6 in
  [/\ size c_vec = 'C(r + 5, r),
      uniq c_vec,
      forall i j, valid_index r 6 i -> valid_index r 6 j ->
        (c_arr i = c_arr j <-> perm_eq i j) /\ c_arr i \in c_vec
    & forall a b, a < r -> b < r ->
        forall idx, swapaxes c_arr a b idx = c_arr idx].
Proof.
have name_inj :
    {in combinations_with_replacement r (iota 0 6) &,
       injective (fun idx => Symbol (symbol_name idx))}.
  move=> i j; rewrite !mem_cwr !(eq_all (in_range0 6)).
  case/and3P => _ _ all_i /and3P[_ _ all_j] [eq_name].
  have lt10 s : all (gtn 6) s -> s \in [pred idx | all (gtn 10) idx].
    by rewrite inE; apply: sub_all => x lt6; apply: leq_trans lt6 _.
  have eq_ij : symbol_name i = symbol_name j by rewrite /symbol_name eq_name.
  exact: (symbol_name_inj (lt10 _ all_i) (lt10 _ all_j) eq_ij).
have sort_perm := perm_sortP leq_total leq_trans anti_leq.
have in_cwr k : valid_index r 6 k ->
    sort leq k \in combinations_with_replacement r (iota 0 6).
  case/andP=> /eqP size_k all_k.
  rewrite mem_cwr size_sort size_k eqxx (sort_sorted leq_total) /=.
  by rewrite (eq_all (in_range0 6)) all_sort.
rewrite [get_symbol_list r 6]surjective_pairing.
set c_arr := (get_symbol_list r 6).2.
have -> : (get_symbol_list r 6).1 =
    [seq Symbol (symbol_name idx)
    | idx <- combinations_with_replacement r (iota 0 6)] by [].
split.
- by rewrite size_map size_cwr size_iota addnC addnS.
- by rewrite map_inj_in_uniq // cwr_uniq.
- move=> i j valid_i valid_j; rewrite /c_arr !c_arr_spec valid_i valid_j.
  split; last by apply/mapP; exists (sort leq i); rewrite ?in_cwr.
  split=> [/name_inj eq_sort|/sort_perm-> //].
  by apply/sort_perm/eq_sort; apply: in_cwr.
- move=> a b lt_a lt_b idx; rewrite /swapaxes /c_arr !c_arr_spec.
  have [size_idx|ne_size] := eqVneq (size idx) r; last first.
    by rewrite /valid_index size_swap_index (negPf ne_size).
  have perm_idx : perm_eq (swap_index a b idx) idx.
    by apply: perm_swap_index; rewrite size_idx.
  by rewrite (valid_index_perm _ _ perm_idx) (sort_perm _ _ perm_idx).
Qed.

End SymbolsTheory.

Module FiniteDifferenceTheory.
Import FiniteDifference.
Local Open Scope ring_scope.
Section Theory.
Variable F : fieldType.
Implicit Types (hvec : seq F) (n k : nat).

Lemma monomial_deriv_at0E k n :
  monomial_deriv_at0 F k n = if k == n then n`!%:R else 0.
Proof.
rewrite /monomial_deriv_at0 horner_coef0 coef_derivn addn0 coefXn ffactnn.
by rewrite eq_sym; case: eqP => _; rewrite ?mul0rn.
Qed.

Lemma stencil_powers_unit hvec : uniq hvec -> stencil_powers hvec \in unitmx.
Proof.
move=> uniq_h; set m := size hvec.
have -> : stencil_powers hvec = Vandermonde m (\row_j nth 0 hvec j).
  by apply/matrixP => k j; rewrite !mxE.
rewrite unitmxE det_Vandermonde unitfE.
apply/prodf_neq0 => i _; apply/prodf_neq0 => j lt_ij; rewrite !mxE subr_eq0.
by rewrite nth_uniq // gtn_eqF.
Qed.

Lemma solve_exact m (a : 'M[F]_m) b :
  a \in unitmx ->
  exists2 x, linalg_solve a b = Ok x & a *m x = b.
Proof.
by move=> unit_a; exists (invmx a *m b); rewrite /linalg_solve ?unit_a ?mulKVmx.
Qed.

(** With n an index of b, hence a stencil that is not empty, the result
    is that of the solve. *)
Lemma get_diff_coeff_solve hvec n :
  (n < size hvec)%N ->
  get_diff_coeff hvec n
  = linalg_solve (stencil_powers hvec) (unit_rhs F (size hvec) n).
Proof.
move=> lt_n; rewrite /get_diff_coeff lt_n.
by rewrite (gtn_eqF (leq_ltn_trans (leq0n n) lt_n)).
Qed.

(** The coefficients solve the moment equations of the stencil. *)
Lemma get_diff_coeff_moments hvec n :
  uniq hvec -> (n < size hvec)%N ->
  exists2 coef, get_diff_coeff hvec n = Ok coef
    & forall k, (k < size hvec)%N ->
        dot_powers coef k = (if k == n then n`!%:R else 0).
Proof.
move=> uniq_h lt_n; rewrite get_diff_coeff_solve //.
have [coef -> solved] :=
  solve_exact (unit_rhs F (size hvec) n) (stencil_powers_unit uniq_h).
exists coef => // k lt_k.
have /(congr1 (fun v : 'cV_ _ => v (Ordinal lt_k) 0)) := solved.
rewrite !mxE /dot_powers /= => <-.
by apply: eq_bigr => j _; rewrite !mxE mulrC.
Qed.

(** C3.  For a stencil of m pairwise distinct perturbations and a
    derivative order n < m, get_diff_coeff returns coefficients whose dot
    product with the samples of x^k at the stencil, for every k below m,
    is the n-th derivative of x^k at 0: n! when k = n and 0 otherwise. *)
Theorem get_diff_coeff_exact hvec n :
  uniq hvec -> (n < size hvec)%N ->
  exists2 coef, get_diff_coeff hvec n = Ok coef
    & forall k, (k < size hvec)%N ->
        dot_powers coef k = monomial_deriv_at0 F k n
        /\ monomial_deriv_at0 F k n = (if k == n then n`!%:R else 0).
Proof.
move=> uniq_h lt_n.
have [coef eq_coef moments] := get_diff_coeff_moments uniq_h lt_n.
by exists coef => // k lt_k; rewrite monomial_deriv_at0E moments.
Qed.

End Theory.

Lemma get_diff_coeff_exact_witness :
  exists2 coef, get_diff_coeff [:: (-1 : rat); 0; 1] 1 = Ok coef
    & forall k, (k < 3)%N ->
        dot_powers coef k = monomial_deriv_at0 rat k 1
        /\ monomial_deriv_at0 rat k 1 = (if k == 1 then 1`!%:R else 0).
Proof. by apply: (@get_diff_coeff_exact rat [:: -1; 0; 1] 1). Defined.

Section Cases.
Variable F : fieldType.
Implicit Types (hvec : seq F) (n k : nat).

Lemma stencil_powers_singular hvec :
  ~~ uniq hvec -> stencil_powers hvec \notin unitmx.
Proof.
move=> /(uniqPn 0)[i [j [lt_ij lt_j eq_ij]]].
have lt_i : (i < size hvec)%N := ltn_trans lt_ij lt_j.
have -> : stencil_powers hvec = Vandermonde (size hvec) (\row_j nth 0 hvec j).
  by apply/matrixP => k l; rewrite !mxE.
rewrite unitmxE det_Vandermonde unitfE negbK.
apply/prodf_eq0; exists (Ordinal lt_i) => //.
apply/prodf_eq0; exists (Ordinal lt_j) => //.
by rewrite !mxE /= eq_ij subrr.
Qed.

(** X2.  When get_diff_coeff returns (exact arithmetic).  It returns
    coefficients exactly when the nodes of the stencil are pairwise
    distinct and n is below their number; with n below the number of
    nodes and a repeated node the matrix of powers is singular and the
    solve raises LinAlgError; with a stencil that is not empty and n at
    or beyond the number of nodes the assignment b[n] raises IndexError
    before any solve; on the empty stencil np.column_stack raises
    ValueError before b is built, whatever n is. *)
Theorem get_diff_coeff_cases hvec n :
  [/\ (exists coef, get_diff_coeff hvec n = Ok coef)
        <-> uniq hvec /\ (n < size hvec)%N,
      (n < size hvec)%N -> ~~ uniq hvec ->
        get_diff_coeff hvec n = Raise LinAlgError,
      hvec != [::] -> (size hvec <= n)%N ->
        get_diff_coeff hvec n = Raise StencilIndex
    & get_diff_coeff ([::] : seq F) n = Raise EmptyStack].
Proof.
have dup : (n < size hvec)%N -> ~~ uniq hvec ->
    get_diff_coeff hvec n = Raise LinAlgError.
  move=> lt_n /stencil_powers_singular/negPf sing.
  by rewrite get_diff_coeff_solve // /linalg_solve sing.
have short : hvec != [::] -> (size hvec <= n)%N ->
    get_diff_coeff hvec n = Raise StencilIndex.
  rewrite -size_eq0 leqNgt /get_diff_coeff => /negPf-> /negPf-> //.
have empty : size hvec == 0%N -> forall c, get_diff_coeff hvec n <> Ok c.
  by move=> eq_h c; rewrite /get_diff_coeff eq_h.
split=> //; split=> [[coef]|[uniq_h lt_n]]; last first.
  by have [coef -> _] := get_diff_coeff_moments uniq_h lt_n; exists coef.
case: (ltnP n (size hvec)) => [lt_n|le_n].
  by case: (boolP (uniq hvec)) => // /(dup lt_n)->.
case: (boolP (size hvec == 0%N)) => [/empty/(_ coef) //|].
by rewrite size_eq0 => /short->.
Qed.

(** Uniqueness: coefficients that satisfy the moment equations are the
    ones returned. *)
Lemma get_diff_coeff_unique hvec n (c : 'cV[F]_(size hvec)) :
  uniq hvec -> (n < size hvec)%N ->
  (forall k, (k < size hvec)%N ->
     dot_powers c k = (if k == n then n`!%:R else 0)) ->
  get_diff_coeff hvec n = Ok c.
Proof.
move=> uniq_h lt_n moments; rewrite get_diff_coeff_solve // /linalg_solve.
have unit_a := stencil_powers_unit uniq_h; rewrite unit_a; congr Ok.
apply: (canLR (mulKmx unit_a)); apply/colP => k; rewrite !mxE.
rewrite -(moments k (ltn_ord k)) /dot_powers.
by apply: eq_bigr => j _; rewrite !mxE mulrC.
Qed.

(** X3.  The coefficients differentiate polynomials exactly: for pairwise
    distinct nodes, n below their number m and a polynomial p of degree
    below m, the dot product of get_diff_coeff(hvec, n) with the values
    of p at the nodes is the n-th derivative of p at 0. *)
Theorem get_diff_coeff_polynomial hvec n (p : {poly F}) :
  uniq hvec -> (n < size hvec)%N -> (size p <= size hvec)%N ->
  exists2 coef, get_diff_coeff hvec n = Ok coef
    & \sum_(j < size hvec) coef j 0 * p.[nth 0 hvec j] = (p^`(n)).[0].
Proof.
move=> uniq_h lt_n le_p.
have [coef eq_coef moments] := get_diff_coeff_moments uniq_h lt_n.
exists coef => //.
rewrite horner_coef0 coef_derivn addn0 ffactnn.
under eq_bigr => j _ do rewrite (horner_coef_wide _ le_p) mulr_sumr.
rewrite exchange_big /=.
under eq_bigr => k _.
  under eq_bigr => j _ do rewrite mulrCA.
  rewrite -mulr_sumr -/(dot_powers coef k) moments //.
  over.
rewrite (bigD1 (Ordinal lt_n)) //= eqxx big1 ?addr0 ?mulr_natr // => k ne_k.
by rewrite -val_eqE /= in ne_k; rewrite (negPf ne_k) mulr0.
Qed.

End Cases.

Section Central.
Variable F : realFieldType.

(** X4.  On the symmetric three-point stencil (-h, 0, h), h nonzero,
    get_diff_coeff returns the central-difference weights:
    (-1/(2h), 0, 1/(2h)) for the first derivative and
    (1/h^2, -2/h^2, 1/h^2) for the second. *)
Theorem central_difference_weights (h : F) :
  h != 0 ->
  let a := (2%:R * h)^-1 in
  let b := (h ^+ 2)^-1 in
  get_diff_coeff [:: - h; 0; h] 1
    = Ok (\col_j nth 0 [:: - a; 0; a] j)
  /\ get_diff_coeff [:: - h; 0; h] 2
    = Ok (\col_j nth 0 [:: b; - (2%:R * b); b] j).
Proof.
move=> h_neq0 a b.
have two_neq0 : (2%:R : F) != 0 by rewrite pnatr_eq0.
have uniq_h : uniq [:: - h; 0; h].
  by rewrite /= !inE oppr_eq0 eqNr [0 == h]eq_sym (negPf h_neq0).
have ah : a * h = 2%:R^-1 by rewrite /a invfM -mulrA mulVf ?mulr1.
have bh : b * h ^+ 2 = 1 by rewrite /b mulVf // expf_neq0.
split; apply: get_diff_coeff_unique => // -[|[|[|k]]] // _;
  rewrite /dot_powers !big_ord_recl big_ord0 !mxE /=;
  rewrite ?expr0 ?expr1 ?mulr1 ?mul0r ?mulr0 ?addr0.
- by rewrite add0r addNr.
- by rewrite add0r mulrNN ah -mulr2n -mulr_natl mulfV.
- by rewrite add0r sqrrN mulNr; exact: addNr.
- by rewrite mulr_natl mulr2n opprD !addrA subrr add0r; exact: addNr.
- by rewrite add0r mulrN; exact: addNr.
- by rewrite sqrrN expr0n /= mulr0 add0r bh -mulr2n.
Qed.

End Central.

(** The parabola x^2 + x on the stencil (-1, 0, 1): the weights for n = 1
    recover its slope at 0. *)
Lemma get_diff_coeff_polynomial_witness :
  exists2 coef, get_diff_coeff [:: (-1 : rat); 0; 1] 1 = Ok coef
    & \sum_(j < 3) coef j 0 * ('X^2 + 'X).[nth 0 [:: (-1 : rat); 0; 1] j]
      = (('X^2 + 'X : {poly rat})^`(1)).[0].
Proof.
apply: (@get_diff_coeff_polynomial rat [:: -1; 0; 1] 1 ('X^2 + 'X)) => //.
by rewrite (leq_trans (size_polyD _ _)) // size_polyXn size_polyX.
Defined.

Lemma central_difference_weights_witness :
  get_diff_coeff [:: - (1 : rat); 0; 1] 1
    = Ok (\col_j nth 0 [:: - (2%:R * 1)^-1; 0; (2%:R * 1)^-1] j)
  /\ get_diff_coeff [:: - (1 : rat); 0; 1] 2
    = Ok (\col_j nth 0 [:: (1 ^+ 2)^-1; - (2%:R * (1 ^+ 2)^-1); (1 ^+ 2)^-1] j).
Proof. exact: (@central_difference_weights rat 1 (oner_neq0 _)). Defined.

End FiniteDifferenceTheory.

Module StrainStatesTheory.
Import StrainStates.
Local Open Scope ring_scope.

Section Monad.
Variables (A B : Type).

Lemma bind_ok (m : M A) (k : A -> M B) ws b :
  bind m k = (ws, Ok b) ->
  exists ws1 a ws2, [/\ m = (ws1, Ok a), k a = (ws2, Ok b) & ws = ws1 ++ ws2].
Proof.
case: m => ws1 [a|e] //=; case eq_k: (k a) => [ws2 [b'|e']] // [<- <-].
by exists ws1, a, ws2.
Qed.

Lemma bind_raise (m : M A) (k : A -> M B) ws e :
  bind m k = (ws, Raise e) ->
  m = (ws, Raise e) \/
  exists ws1 a ws2, [/\ m = (ws1, Ok a), k a = (ws2, Raise e) & ws = ws1 ++ ws2].
Proof.
case: m => ws1 [a|e1] /=; last by case=> <- <-; left.
by case eq_k: (k a) => [ws2 [b'|e']] // [<- <-]; right; exists ws1, a, ws2.
Qed.

End Monad.

Section FoldM.
Variables (A : eqType) (B : Type).

Lemma foldM_ok (P : B -> Prop) (f : B -> A -> M B) s b ws b' :
  P b ->
  (forall b0 x ws0 b1, x \in s -> P b0 -> f b0 x = (ws0, Ok b1) -> P b1) ->
  foldM f b s = (ws, Ok b') -> P b'.
Proof.
elim: s b ws => [|x s IH] b ws Pb step /=; first by case=> _ <-.
move=> eq_b; have [ws1 [b1 [ws2 [eq_f eq_fold _]]]] := bind_ok eq_b.
apply: IH eq_fold; first exact: step (mem_head _ _) Pb eq_f.
by move=> b0 y ws0 b2 y_s; apply: step; rewrite in_cons y_s orbT.
Qed.

Lemma foldM_raise (f : B -> A -> M B) s b ws e :
  foldM f b s = (ws, Raise e) ->
  exists b0 x ws0, x \in s /\ f b0 x = (ws0, Raise e).
Proof.
elim: s b ws => [|x s IH] b ws //=.
move=> eq_b.
have [eq_f|[ws1 [b1 [ws2 [_ /IH[b0 [y [ws0 [y_s eq_y]]]] _]]]]] := bind_raise eq_b.
  by exists b, x, ws; rewrite mem_head.
by exists b0, y, ws0; rewrite in_cons y_s orbT.
Qed.

Lemma foldM_warnings (f : B -> A -> M B) s b :
  (forall b0 x, warnings (f b0 x) = [::]) -> warnings (foldM f b s) = [::].
Proof.
move=> quiet; elim: s b => [|x s IH] b //=.
rewrite /bind; case eq_f: (f b x) (quiet b x) => [ws1 [b1|e]] /= -> //.
by case eq_fold: (foldM f b1 s) (IH b1) => [ws2 r] /= ->.
Qed.

End FoldM.

Lemma mem_map_ex (T : Type) (U : eqType) (f : T -> U) (s : seq T) y :
  y \in [seq f x | x <- s] -> exists x, y = f x.
Proof.
elim: s => [|x s IH] //=; rewrite in_cons => /predU1P[->|/IH //].
by exists x.
Qed.

Section Theory.
Variable F : realFieldType.
Implicit Types (e s : mat3 F) (v key : vec6 F) (ind : seq nat) (tol : F).

Lemma tol_1em10_gt0 : 0 < tol_1em10 F.
Proof. by rewrite /tol_1em10 -lock invr_gt0 exprn_gt0 // ltr0n. Qed.

Lemma atol_1em8_gt0 : 0 < atol_1em8 F.
Proof. by rewrite /atol_1em8 -lock invr_gt0 exprn_gt0 // ltr0n. Qed.

Lemma close_stress_refl s : close_stress s s.
Proof.
apply/allP => i _; apply/allP => j _.
by rewrite subrr normr0 ltW // atol_1em8_gt0.
Qed.

(** find_eq_stress on a list of samples that is not empty. *)
Lemma find_eq_stressE (strains stresses : seq (mat3 F)) tol :
  (0 < size strains)%N -> size stresses = size strains ->
  find_eq_stress strains stresses tol =
  let zs := eq_candidates strains stresses tol in
  if zs is s0 :: _ then
    if (1 < size zs)%N && ~~ all (fun s => close_stress s s0) zs
    then raise AmbiguousEqStress else ret (PlainArray s0)
  else warn NoEqState ;;; ret (StressObject (@zero_mat3 F)).
Proof. by case: strains => //= e strains _ ->; rewrite eqxx. Qed.

Lemma eq_candidates_nil (stresses : seq (mat3 F)) tol :
  eq_candidates [::] stresses tol = [::].
Proof. by []. Qed.

(** C5 (amended).  With as many stresses as strains, and zs the stresses
    of the samples whose strain entries are all below tol:
    - if zs is not empty and all its members agree pairwise within 1e-8,
      find_eq_stress returns the first of them without a warning;
    - if some member of zs differs from the first member beyond 1e-8
      (as when zs has exactly two members that differ beyond 1e-8),
      it raises the ambiguity error;
    - if zs is empty and the list of samples is not, it returns the zero
      stress with one warning;
    - on an empty list of samples it raises numpy's AxisError. *)
Theorem find_eq_stress_cases (strains stresses : seq (mat3 F)) tol :
  size stresses = size strains ->
  let zs := eq_candidates strains stresses tol in
  [/\ forall s0 rest, zs = s0 :: rest -> allrel (@close_stress F) zs zs ->
        find_eq_stress strains stresses tol = ([::], Ok (PlainArray s0)),
      forall s0 rest, zs = s0 :: rest -> ~~ all (fun s => close_stress s s0) rest ->
        find_eq_stress strains stresses tol = ([::], Raise AmbiguousEqStress),
      forall s0 s1, zs = [:: s0; s1] -> ~~ close_stress s1 s0 ->
        find_eq_stress strains stresses tol = ([::], Raise AmbiguousEqStress),
      zs = [::] -> (0 < size strains)%N ->
        find_eq_stress strains stresses tol
        = ([:: NoEqState], Ok (StressObject (@zero_mat3 F)))
    & size strains = 0%N ->
        find_eq_stress strains stresses tol = ([::], Raise AxisError)].
Proof.
move=> eq_size zs.
have some_sample s0 rest : zs = s0 :: rest -> (0 < size strains)%N.
  by rewrite /zs; case: strains {eq_size zs} => //; rewrite eq_candidates_nil.
have ambiguous s0 rest : zs = s0 :: rest -> ~~ all (fun s => close_stress s s0) rest ->
    find_eq_stress strains stresses tol = ([::], Raise AmbiguousEqStress).
  move=> eq_zs not_same; rewrite find_eq_stressE ?(some_sample _ _ eq_zs) //=.
  rewrite -/zs eq_zs /= close_stress_refl /= not_same andbT.
  by case: rest not_same {eq_zs}.
split=> [s0 rest eq_zs||||] //.
- rewrite find_eq_stressE ?(some_sample _ _ eq_zs) //= -/zs eq_zs.
  rewrite /allrel /= => /andP[/andP[_ _] all_close].
  have -> : all (fun s => close_stress s s0) rest.
    by apply: sub_all all_close => s /andP[].
  by rewrite close_stress_refl /= andbF.
- by move=> s0 s1 eq_zs not_close; apply: (ambiguous s0 [:: s1]); rewrite //= andbT.
- by move=> eq_zs some; rewrite find_eq_stressE //= -/zs eq_zs.
- by case: strains {eq_size zs some_sample ambiguous}.
Qed.

Lemma is_zero_strain_zero tol : 0 < tol -> is_zero_strain tol (@zero_mat3 F).
Proof. by move=> tol_gt0; rewrite /is_zero_strain /all9 /= !normr0 tol_gt0. Qed.

Lemma close_stress_const (x y : F) :
  close_stress (const_mat3 x) (const_mat3 y) = (`|x - y| <= atol_1em8 F).
Proof.
by rewrite /close_stress /all9_2 /const_mat3 /=; case: (_ <= _).
Qed.

(** Three samples at zero strain whose stresses are 0, -1e-8 and 1e-8 in
    every component: the last two differ by 2e-8, yet each is within
    1e-8 of the first, and the first is returned. *)
Lemma find_eq_stress_first_only tol :
  0 < tol ->
  let a := atol_1em8 F in
  let strains := [:: @zero_mat3 F; @zero_mat3 F; @zero_mat3 F] in
  let stresses := [:: const_mat3 0; const_mat3 (- a); const_mat3 a] in
  [/\ eq_candidates strains stresses tol = stresses,
      ~~ close_stress (const_mat3 a) (const_mat3 (- a))
    & find_eq_stress strains stresses tol
      = ([::], Ok (PlainArray (const_mat3 0)))].
Proof.
move=> tol_gt0 a strains stresses; have a_gt0 : 0 < a := atol_1em8_gt0.
have eq_zs : eq_candidates strains stresses tol = stresses.
  by rewrite /eq_candidates /= !is_zero_strain_zero.
split=> //.
  rewrite close_stress_const opprK -/a gtr0_norm ?addr_gt0 // -ltNge.
  by rewrite -[X in X < _]addr0 ltrD2l.
rewrite /find_eq_stress eqxx /= eq_zs /= !close_stress_const.
by rewrite subrr !subr0 normr0 normrN gtr0_norm // lexx ltW.
Qed.

Lemma find_eq_stress_two_agree tol (x : F) :
  0 < tol ->
  let strains := [:: @zero_mat3 F; @zero_mat3 F] in
  let stresses := [:: const_mat3 x; const_mat3 x] in
  eq_candidates strains stresses tol = stresses
  /\ allrel (@close_stress F) stresses stresses.
Proof.
move=> tol_gt0; split; first by rewrite /eq_candidates /= !is_zero_strain_zero.
by rewrite /allrel /= !close_stress_refl.
Qed.

(* ----- argmin ----- *)

Lemma argmin_fromP (p rest : seq F) best_i :
  (best_i < size p)%N ->
  (forall y, y \in p -> nth 0 p best_i <= y) ->
  let k := argmin_from best_i (nth 0 p best_i) (size p) rest in
  (k < size (p ++ rest))%N /\
  (forall y, y \in p ++ rest -> nth 0 (p ++ rest) k <= y).
Proof.
elim: rest p best_i => [|x rest IH] p best_i lt_best min_best /=.
  by rewrite cats0.
case: ifP => [lt_x|ge_x]; rewrite -cat_rcons.
  have := IH (rcons p x) (size p).
  rewrite nth_rcons ltnn eqxx size_rcons; apply=> // y.
  rewrite mem_rcons in_cons => /predU1P[-> //|/min_best].
  exact/le_trans/ltW.
have := IH (rcons p x) best_i.
rewrite nth_rcons lt_best size_rcons; apply=> [|y]; first exact: ltnW.
rewrite mem_rcons in_cons.
by case/predU1P=> [->|/min_best //]; rewrite leNgt ge_x.
Qed.

Lemma argminP (s : seq F) :
  s != [::] ->
  (argmin s < size s)%N /\ (forall y, y \in s -> nth 0 s (argmin s) <= y).
Proof.
case: s => [|x s] // _.
have := @argmin_fromP [:: x] s 0%N (ltn0Sn _).
by apply=> y; rewrite mem_seq1 => /eqP->.
Qed.

(* ----- strain states ----- *)

Lemma template_nth ind i : (i < 6)%N -> nth false (template ind) i = (i \in ind).
Proof.
by move=> lt_i; rewrite /template (nth_map 0%N) ?size_iota // nth_iota.
Qed.

Lemma matches_gt ind v i :
  size v = 6%N -> matches ind v -> i \in ind -> (i < 6)%N ->
  tol_1em10 F < `|nth 0 v i|.
Proof.
move=> size_v /eqP eq_t i_ind lt_i.
by have := template_nth ind lt_i; rewrite eq_t (nth_map 0) ?size_v // i_ind.
Qed.

Lemma size_strain_state_of ind v : size (strain_state_of ind v) = size v.
Proof. by rewrite /strain_state_of size_map. Qed.

(** The key of a selected row has the entry 1 at the position of the
    entry of least magnitude among the positions ind. *)
Lemma strain_state_unit ind v :
  size v = 6%N -> matches ind v -> ind != [::] -> all (gtn 6) ind ->
  let i0 := min_nonzero_pos ind v in
  [/\ i0 \in ind, (i0 < 6)%N,
      forall i, i \in ind -> `|nth 0 v i0| <= `|nth 0 v i|,
      nth 0 (strain_state_of ind v) i0 = 1
    & 1 \in strain_state_of ind v].
Proof.
move=> size_v match_v ind_neq0 lt_ind i0.
pose taken := [seq nth 0 v i | i <- ind].
pose mags := [seq `|x| | x <- taken].
have size_mags : size mags = size ind by rewrite !size_map.
have mags_neq0 : mags != [::] by rewrite -size_eq0 size_mags size_eq0.
have [lt_k min_k] := argminP mags_neq0.
rewrite size_mags in lt_k.
have i0_ind : i0 \in ind by apply: mem_nth.
have lt_i0 : (i0 < 6)%N by apply: (allP lt_ind).
have eq_taken : nth 0 taken (argmin mags) = nth 0 v i0.
  by rewrite (nth_map 0%N).
have v_neq0 : nth 0 v i0 != 0.
  rewrite -normr_gt0; apply: lt_trans (matches_gt size_v match_v i0_ind lt_i0).
  exact: tol_1em10_gt0.
have key_i0 : nth 0 (strain_state_of ind v) i0 = 1.
  rewrite /strain_state_of -/taken -/mags eq_taken (nth_map 0) ?size_v //.
  by rewrite divff.
split=> // [i i_ind|].
  have -> : `|nth 0 v i0| = nth 0 mags (argmin mags).
    by rewrite (nth_map 0) ?eq_taken // size_map.
  by apply: min_k; apply/map_f/map_f.
by apply/(nthP 0); exists i0; rewrite // size_strain_state_of size_v.
Qed.

Lemma classify_stateE vs vt veq sf (d : dict F) ind :
  classify_state vs vt veq sf d ind =
  if size vt != size vs then raise MaskMismatch
  else if [seq v <- vs | matches ind v] is [::] then raise EmptyGroupIndex
  else if ind is [::] then raise ArgminEmpty
  else ret (dict_set d
              (strain_state_of ind (last [::] [seq v <- vs | matches ind v]))
              (build_group [seq v <- vs | matches ind v]
                 (mask [seq matches ind v | v <- vs] vt) veq sf ind)).
Proof. by rewrite /classify_state -filter_mask. Qed.

Lemma classify_state_quiet vs vt veq sf (d : dict F) ind :
  warnings (classify_state vs vt veq sf d ind) = [::].
Proof.
rewrite classify_stateE; case: ifP => // _.
by case: [seq _ <- _ | _] => // x s; case: ind.
Qed.

Lemma classify_state_inv vs vt veq sf (d d' : dict F) ind ws :
  classify_state vs vt veq sf d ind = (ws, Ok d') ->
  exists2 row,
    [/\ row \in vs, matches ind row, ind != [::] & size vt = size vs]
    & d' = dict_set d (strain_state_of ind row)
             (build_group [seq v <- vs | matches ind v]
                (mask [seq matches ind v | v <- vs] vt) veq sf ind).
Proof.
rewrite classify_stateE; case: eqP => //= eq_size.
case eq_sel: [seq _ <- _ | _] => [|x sel] //; case: ind eq_sel => // i ind eq_sel.
case=> _ <-; exists (last x sel) => //; split=> //.
  have: last x sel \in [seq v <- vs | matches (i :: ind) v].
    by rewrite eq_sel mem_last.
  by rewrite mem_filter => /andP[].
have: last x sel \in [seq v <- vs | matches (i :: ind) v].
  by rewrite eq_sel mem_last.
by rewrite mem_filter => /andP[].
Qed.

Lemma mem_dict_set (d : dict F) k g kv :
  kv \in dict_set d k g -> kv \in d \/ kv = (k, g).
Proof.
rewrite /dict_set; case: ifP => _; last first.
  by rewrite mem_rcons in_cons => /predU1P[->|->]; [right|left].
case/mapP=> -[k' g'] in_d /=; case: eqP => [->|_] ->; first by right.
by left.
Qed.

Lemma size_strain_voigt (e : mat3 F) : size (strain_voigt e) = 6%N.
Proof. by []. Qed.

Lemma nonzero_inds_lt v : all (gtn (size v)) (nonzero_inds v).
Proof.
by apply/allP => i; rewrite mem_filter mem_iota add0n => /andP[_ /andP[]].
Qed.

Lemma stencil_axis_unit key :
  1 \in key -> size key = 6%N ->
  stencil_axis key = Ok (index 1 key) /\ (index 1%R key < 6)%N.
Proof. by move=> in_key size_key; rewrite /stencil_axis in_key -size_key index_mem. Qed.

(* ----- one sample along the first axis ----- *)

Lemma tol_1em10_lt1 : tol_1em10 F < 1.
Proof.
rewrite /tol_1em10 -lock invf_lt1 ?exprn_gt0 ?ltr0n //.
by rewrite exprn_egt1 // ltr1n.
Qed.

Lemma strain_voigt_axial x tol :
  ~~ (`|x| < tol) ->
  strain_voigt (zeroed tol (axial_strain x)) = [:: x; 0; 0; 0; 0; 0].
Proof.
by move=> /negPf ge_x; rewrite /strain_voigt /zeroed /= ge_x !if_same !mulr0.
Qed.

Lemma matches_axial x :
  matches [:: 0%N] [:: x; 0; 0; 0; 0; 0] = (tol_1em10 F < `|x|).
Proof.
rewrite /matches /template /= normr0 [_ < 0]ltNge (ltW tol_1em10_gt0) /=.
by case: (_ < _).
Qed.

(** The loop of get_strain_state_dict on the single strain
    axial_strain x that survives the zeroing: the group of the index set
    (0,) is selected with the hard-coded threshold 1e-10, whatever tol. *)
Lemma classify_axial x tol s veq sf :
  ~~ (`|x| < tol) -> x != 0 ->
  let vs := [seq strain_voigt (zeroed tol e) | e <- [:: axial_strain x]] in
  let vt := [seq stress_voigt (zeroed tol t) | t <- [:: s]] in
  foldM (classify_state vs vt veq sf) [::]
        (undup [seq nonzero_inds v | v <- vs]) =
  if tol_1em10 F < `|x| then
    ([::], Ok [:: (strain_state_of [:: 0%N] [:: x; 0; 0; 0; 0; 0],
                   build_group vs vt veq sf [:: 0%N])])
  else ([::], Raise EmptyGroupIndex).
Proof.
move=> ge_x x_neq0 /=; rewrite (strain_voigt_axial ge_x).
have -> : nonzero_inds [:: x; 0; 0; 0; 0; 0] = [:: 0%N].
  by rewrite /nonzero_inds /= x_neq0 eqxx.
by rewrite /= classify_stateE /= matches_axial; case: ifP.
Qed.

(** C9.  Every key of the dict returned by get_strain_state_dict is the
    ratio of a selected row to its entry of least magnitude among the
    nonzero positions of the group; it holds exactly 1 at that position.
    So strain_state.index(1), by which diff_fit finds the axis of the
    stencil, never fails and gives an axis below 6. *)
Theorem strain_state_keys_have_unit (strains stresses : seq (mat3 F))
    eq_stress tol add_eq sort_flag ws d :
  get_strain_state_dict strains stresses eq_stress tol add_eq sort_flag
    = (ws, Ok d) ->
  forall key data, (key, data) \in d ->
  [/\ 1 \in key,
      exists ind row,
        [/\ key = strain_state_of ind row, matches ind row
          & nth 0 key (min_nonzero_pos ind row) = 1],
      stencil_axis key = Ok (index 1 key), (index 1%R key < 6)%N
    & stencil key data = Ok (column (StrainStates.strains data) (index 1 key))].
Proof.
rewrite /get_strain_state_dict => eq_res.
have [ws1 [veq [ws2 [_ eq_fold _]]]] := bind_ok eq_res.
pose vs := [seq strain_voigt (zeroed tol e) | e <- strains].
pose good (key : vec6 F) := size key = 6%N /\
  exists ind row, [/\ key = strain_state_of ind row, matches ind row
                    & nth 0 key (min_nonzero_pos ind row) = 1].
have all_good : forall kv, kv \in d -> good kv.1.
  apply: (foldM_ok (P := fun d0 : dict F => forall kv, kv \in d0 -> good kv.1)
            _ _ eq_fold) => // d0 ind ws0 d1 ind_indep good_d0.
  case/classify_state_inv=> row [row_vs match_row ind_neq0 _] -> kv.
  case/mem_dict_set=> [/good_d0 //|-> /=].
  have size_row : size row = 6%N by case/mem_map_ex: row_vs => e ->.
  have lt_ind : all (gtn 6) ind.
    move: ind_indep; rewrite mem_undup => /mapP[v /mem_map_ex[e ->] ->].
    exact: nonzero_inds_lt.
  have [_ _ _ unit_key _] := strain_state_unit size_row match_row ind_neq0 lt_ind.
  by split; [rewrite size_strain_state_of | exists ind, row].
move=> key data /all_good[/= size_key [ind [row [eq_key match_row unit_key]]]].
have in_key : 1 \in key.
  rewrite -unit_key; apply: mem_nth; rewrite size_key.
  have [//|ge6] := ltnP (min_nonzero_pos ind row) 6.
  by move: unit_key; rewrite nth_default ?size_key // => /eqP; rewrite eq_sym oner_eq0.
have [eq_axis lt_axis] := stencil_axis_unit in_key size_key.
by split=> //; [exists ind, row | rewrite /stencil eq_axis].
Qed.

(* ----- an explicit equilibrium stress ----- *)

Lemma classify_state_raises vs vt veq sf (d : dict F) ind ws (err : exn) :
  classify_state vs vt veq sf d ind = (ws, Raise err) ->
  [\/ err = MaskMismatch, err = EmptyGroupIndex | err = ArgminEmpty].
Proof.
rewrite classify_stateE; case: ifP => _; first by case=> _ <-; constructor 1.
case: [seq _ <- _ | _] => [|x sel]; first by case=> _ <-; constructor 2.
by case: ind => // -[_ <-]; constructor 3.
Qed.

Lemma build_group_has_eq (ms mt : seq (vec6 F)) q sf ind :
  size mt = size ms ->
  let g := build_group ms mt (Some q) sf ind in
  (zeros6 F, q) \in zip (StrainStates.strains g) (StrainStates.stresses g).
Proof.
move=> eq_size; rewrite /build_group; case: sf => /=; last first.
  by rewrite zip_rcons // mem_rcons mem_head.
rewrite /reorder zip_map; apply/mapP; exists (size ms).
  by rewrite mem_sort mem_iota add0n size_map size_rcons /=.
by rewrite !nth_rcons -eq_size !ltnn !eqxx.
Qed.

Lemma get_strain_state_dict_explicit (strains stresses : seq (mat3 F))
    (e : mat3 F) tol add_eq sort_flag :
  get_strain_state_dict strains stresses (Some e) tol add_eq sort_flag =
  foldM (classify_state [seq strain_voigt (zeroed tol x) | x <- strains]
           [seq stress_voigt (zeroed tol x) | x <- stresses]
           (if add_eq then Some (stress_voigt e) else None) sort_flag)
        [::]
        (undup [seq nonzero_inds v
               | v <- [seq strain_voigt (zeroed tol x) | x <- strains]]).
Proof.
by rewrite /get_strain_state_dict; case: add_eq => /=; case: (foldM _ _ _).
Qed.

(** C10.  When eq_stress is supplied, get_strain_state_dict never raises
    the ambiguity error of find_eq_stress and never emits its warning,
    whatever the samples are (also with several zero-strain samples
    whose stresses disagree); and with add_eq every stored group
    contains the zero strain paired with the supplied stress. *)
Theorem explicit_eq_stress_is_used (strains stresses : seq (mat3 F))
    (e : mat3 F) tol add_eq sort_flag :
  let r := get_strain_state_dict strains stresses (Some e) tol add_eq sort_flag in
  [/\ outcome r <> Raise AmbiguousEqStress,
      warnings r = [::]
    & forall d, outcome r = Ok d -> add_eq ->
      forall key data, (key, data) \in d ->
        (zeros6 F, stress_voigt e)
          \in zip (StrainStates.strains data) (StrainStates.stresses data)].
Proof.
rewrite get_strain_state_dict_explicit.
set vs := [seq strain_voigt _ | _ <- strains].
set vt := [seq stress_voigt _ | _ <- stresses].
set ks := undup _; set veq := if add_eq then _ else _.
case eq_fold: (foldM _ _ _) => [ws res] /=; split.
- move=> eq_res; rewrite eq_res in eq_fold.
  have [d0 [ind [ws0 [_ /classify_state_raises]]]] := foldM_raise eq_fold.
  by case.
- have := @foldM_warnings _ _ (classify_state vs vt veq sort_flag) ks [::]
            (classify_state_quiet vs vt veq sort_flag).
  by rewrite eq_fold.
move=> d eq_res add_eq_on; rewrite eq_res /veq add_eq_on in eq_fold.
pose has_eq (g : group F) :=
  (zeros6 F, stress_voigt e)
    \in zip (StrainStates.strains g) (StrainStates.stresses g).
have all_eq : forall kv, kv \in d -> has_eq kv.2.
  apply: (foldM_ok (P := fun d0 : dict F => forall kv, kv \in d0 -> has_eq kv.2)
            _ _ eq_fold) => // d0 ind ws0 d1 _ eq_d0.
  case/classify_state_inv=> row [_ _ _ eq_size] -> kv.
  case/mem_dict_set=> [/eq_d0 //|-> /=].
  apply: build_group_has_eq.
  have eq_size' : size strains = size stresses.
    by move: eq_size; rewrite !size_map.
  by rewrite filter_mask !size_mask ?size_map.
by move=> key data /all_eq.
Qed.

(** The same samples without eq_stress: two zero-strain samples whose
    stresses differ raise the ambiguity error. *)
Lemma implicit_eq_stress_ambiguous tol add_sort :
  get_strain_state_dict [:: @zero_mat3 F; @zero_mat3 F]
    [:: const_mat3 0; const_mat3 1] None tol true add_sort
  = ([::], Raise AmbiguousEqStress).
Proof.
rewrite /get_strain_state_dict /find_eq_stress /= /eq_candidates /=.
rewrite !(is_zero_strain_zero tol_1em10_gt0) /= !close_stress_const.
rewrite subrr normr0 (ltW atol_1em8_gt0) subr0 normr1 /=.
have -> : (1 <= atol_1em8 F) = false.
  apply/negbTE; rewrite -ltNge /atol_1em8 -lock invf_lt1 ?exprn_gt0 ?ltr0n //.
  by rewrite exprn_egt1 // ltr1n.
by [].
Qed.

(* ----- the selection mask and tol ----- *)

Lemma get_strain_state_dict_axial_explicit x tol s q sf :
  ~~ (`|x| < tol) -> x != 0 ->
  get_strain_state_dict [:: axial_strain x] [:: s] (Some q) tol true sf =
  if tol_1em10 F < `|x| then
    ([::], Ok [:: (strain_state_of [:: 0%N] [:: x; 0; 0; 0; 0; 0],
                   build_group [:: strain_voigt (zeroed tol (axial_strain x))]
                     [:: stress_voigt (zeroed tol s)]
                     (Some (stress_voigt q)) sf [:: 0%N])])
  else ([::], Raise EmptyGroupIndex).
Proof.
move=> ge_x x_neq0; rewrite get_strain_state_dict_explicit.
exact: (classify_axial _ _ _ ge_x x_neq0).
Qed.

(** Without eq_stress the same sample is found by find_eq_stress, whose
    tolerance is the default 1e-10: the value returned is a plain array
    and reading its voigt attribute raises before the loop. *)
Lemma get_strain_state_dict_axial_implicit x tol s sf :
  `|x| < tol_1em10 F ->
  get_strain_state_dict [:: axial_strain x] [:: s] None tol true sf =
  ([::], Raise AttributeError).
Proof.
move=> lt_x; rewrite /get_strain_state_dict.
have -> : find_eq_stress [:: axial_strain x] [:: s] (tol_1em10 F)
          = ([::], Ok (PlainArray s)).
  rewrite /find_eq_stress /= /eq_candidates /= /is_zero_strain /all9 /=.
  by rewrite lt_x normr0 tol_1em10_gt0.
by [].
Qed.

Lemma half_tol_facts :
  let t := tol_1em10 F in
  [/\ t / 2%:R != 0, ~~ (`|t / 2%:R| < t / 10%:R), `|t / 2%:R| < t
    & ~~ (t < `|t / 2%:R|)].
Proof.
move=> t; have t_gt0 : 0 < t := tol_1em10_gt0.
have half_gt0 : 0 < t / 2%:R by rewrite divr_gt0 ?ltr0n.
rewrite gtr0_norm // gt_eqF // -!leNgt; split=> //.
- by rewrite ler_pM2l // lef_pV2 ?qualifE /= ?ltr0n // ler_nat.
- by rewrite ltr_pdivrMr ?ltr0n // mulr_natr mulr2n -subr_gt0 addrK.
- by rewrite ler_pdivrMr ?ltr0n // mulr_natr mulr2n -subr_ge0 addrK ltW.
Qed.

(** C4, at an input where the code departs from it: tol = 1e-11, one
    sample whose only nonzero strain entry is 5e-11, and an explicit
    equilibrium stress q.  The reduced strain has the nonzero pattern
    (0,), so (0,) is an independent index set; but the selection compares
    magnitudes with the literal 1e-10 instead of tol, selects no sample
    for (0,), and mstrains[-1] raises. *)
Theorem selection_ignores_tol (s q : mat3 F) :
  let tol := tol_1em10 F / 10%:R in
  let e := axial_strain (tol_1em10 F / 2%:R) in
  let v := strain_voigt (zeroed tol e) in
  [/\ nonzero_inds v = [:: 0%N],
      [seq w <- [:: v] | matches [:: 0%N] w] = [::]
    & get_strain_state_dict [:: e] [:: s] (Some q) tol true true
      = ([::], Raise EmptyGroupIndex)].
Proof.
move=> tol e v; have [x_neq0 ge_x lt_x not_gt] := half_tol_facts.
rewrite /v (strain_voigt_axial ge_x); split.
- by rewrite /nonzero_inds /= x_neq0 eqxx.
- by rewrite /= matches_axial (negPf not_gt).
by rewrite get_strain_state_dict_axial_explicit // (negPf not_gt).
Qed.

Lemma unit_strain_facts :
  [/\ (1 : F) != 0, ~~ (`|1| < tol_1em10 F) & tol_1em10 F < `|1 : F|].
Proof.
by rewrite normr1 oner_neq0 -leNgt (ltW tol_1em10_lt1) tol_1em10_lt1.
Qed.

Lemma get_strain_state_dict_unit (s q : mat3 F) :
  get_strain_state_dict [:: axial_strain 1] [:: s] (Some q)
    (tol_1em10 F) true true =
  ([::], Ok [:: (strain_state_of [:: 0%N] [:: 1; 0; 0; 0; 0; 0],
                 build_group
                   [:: strain_voigt (zeroed (tol_1em10 F) (axial_strain 1))]
                   [:: stress_voigt (zeroed (tol_1em10 F) s)]
                   (Some (stress_voigt q)) true [:: 0%N])]).
Proof.
have [neq0 ge1 gt1] := unit_strain_facts.
by rewrite get_strain_state_dict_axial_explicit // gt1.
Qed.

End Theory.

(** One sample of unit strain along the first axis, with an explicit
    equilibrium stress: the dict has one key, and it contains 1. *)
Lemma strain_state_keys_have_unit_witness :
  let key := strain_state_of [:: 0%N] [:: (1 : rat); 0; 0; 0; 0; 0] in
  1 \in key /\ stencil_axis key = Ok (index 1 key).
Proof.
have eq_res := get_strain_state_dict_unit (@zero_mat3 rat) (@zero_mat3 rat).
have [in_key _ eq_axis _ _] :=
  strain_state_keys_have_unit eq_res (mem_head _ _).
by split.
Defined.

(** Two samples at zero strain with the same stress: the first clause of
    find_eq_stress_cases applies and gives that stress. *)
Lemma find_eq_stress_cases_witness :
  find_eq_stress [:: @zero_mat3 rat; @zero_mat3 rat]
    [:: const_mat3 1; const_mat3 1] (tol_1em10 rat)
  = ([::], Ok (PlainArray (const_mat3 1))).
Proof.
have [same _ _ _ _] :=
  @find_eq_stress_cases rat [:: @zero_mat3 rat; @zero_mat3 rat]
    [:: const_mat3 1; const_mat3 1] (tol_1em10 rat) (erefl _).
have [eq_zs agree] := find_eq_stress_two_agree (1 : rat) (tol_1em10_gt0 rat).
by apply: (same _ _ eq_zs); rewrite eq_zs; exact: agree.
Defined.

(** C5 as stated fails: among three samples at zero strain, two have
    stresses that differ beyond 1e-8, and no error is raised. *)
Lemma find_eq_stress_pairwise_counterexample :
  let a := atol_1em8 rat in
  let strains := [:: @zero_mat3 rat; @zero_mat3 rat; @zero_mat3 rat] in
  let stresses := [:: const_mat3 0; const_mat3 (- a); const_mat3 a] in
  [/\ eq_candidates strains stresses (tol_1em10 rat) = stresses,
      ~~ close_stress (nth (@zero_mat3 rat) stresses 2)
                      (nth (@zero_mat3 rat) stresses 1)
    & outcome (find_eq_stress strains stresses (tol_1em10 rat))
      <> Raise AmbiguousEqStress].
Proof.
move=> a strains stresses.
have [eq_zs differ eq_res] := find_eq_stress_first_only (tol_1em10_gt0 rat).
by split=> //; rewrite eq_res.
Qed.

End StrainStatesTheory.

Module TensorsTheory.
Import Tensors.
Local Open Scope ring_scope.

Section Theory.
Variable F : realFieldType.
Variable ndarray : Type.
Variable ndim : ndarray -> nat.
Variable all_axes_3 : ndarray -> bool.
Variable is_voigt_symmetric : ndarray -> F -> bool.

Local Notation Tensor_new := (Tensor_new ndim all_axes_3).
Local Notation NthOrderElasticTensor_new :=
  (NthOrderElasticTensor_new ndim all_axes_3 is_voigt_symmetric).

Lemma Tensor_new_same a check_rank obj :
  Tensor_new a check_rank = Ok obj -> obj = a.
Proof. by rewrite /Tensor_new; case: ifP => // _; case: ifP => // _ []. Qed.

(** C7.  Building an NthOrderElasticTensor from an array with an odd
    number of axes always ends in an error; building one from an array
    that the container accepts, of even rank, that fails the Voigt
    symmetry test at the given tolerance only emits the warning and
    returns the tensor. *)
Theorem nth_order_new_odd_or_asymmetric (a : ndarray) check_rank (tol : F) :
  (odd (ndim a) ->
     exists err, NthOrderElasticTensor_new a check_rank tol = ([::], Raise err))
  /\ (forall obj, Tensor_new a check_rank = Ok obj ->
        ~~ odd (rank ndim obj) -> ~~ is_voigt_symmetric obj tol ->
        NthOrderElasticTensor_new a check_rank tol
        = ([:: NotVoigtSymmetric], Ok obj)).
Proof.
rewrite /NthOrderElasticTensor_new /Tensors.NthOrderElasticTensor_new.
split=> [odd_a|obj eq_obj even_obj asym].
  case eq_new: (Tensor_new a check_rank) => [obj|err] /=; last by exists err.
  rewrite (Tensor_new_same eq_new) /rank modn2 odd_a /=.
  by exists OddRank.
by rewrite eq_obj /= modn2 (negPf even_obj) /= asym.
Qed.

End Theory.

(** Arrays given by their number of axes alone, all of them accepted by
    the container and none of them symmetric: rank 3 is refused, rank 4
    is built with the warning. *)
Lemma nth_order_new_examples :
  Tensors.NthOrderElasticTensor_new id xpredT (fun _ (_ : rat) => false)
    3%N None 0 = ([::], Raise OddRank)
  /\ Tensors.NthOrderElasticTensor_new id xpredT (fun _ (_ : rat) => false)
       4%N (Some 4%N) 0 = ([:: NotVoigtSymmetric], Ok 4%N).
Proof. by []. Qed.

End TensorsTheory.

Module IndependentStrainsTheory.
Import StrainStates IndependentStrains StrainStatesTheory.
Local Open Scope ring_scope.

Section Theory.
Variable F : realFieldType.
Variable polyfit_slope : seq F -> seq F -> F.
Implicit Types (d : dict F) (k : vec6 F).

Local Notation fit_row := (fit_row polyfit_slope).
Local Notation voigt_fit := (voigt_fit polyfit_slope).
Local Notation from_independent_strains :=
  (from_independent_strains polyfit_slope).

Lemma unit_state_in i : (i < 6)%N -> unit_state F i \in strain_states F.
Proof. by move=> lt_i; apply/mapP; exists i; rewrite // mem_iota. Qed.

Lemma nth_strain_states i :
  (i < 6)%N -> nth [::] (strain_states F) i = unit_state F i.
Proof.
by move=> lt_i; rewrite (nth_map 0%N) ?size_iota // nth_iota.
Qed.

Lemma dict_get_required d k :
  k \in strain_states F -> dict_get (required_only d) k = dict_get d k.
Proof.
move=> k_in; rewrite /dict_get /required_only -filter_predI.
congr (if _ is _ :: _ then _ else _); apply: eq_filter => kv /=.
by case: eqP => // ->; rewrite k_in.
Qed.

Lemma dict_get_ok d k : k \in keys d -> exists data, dict_get d k = Ok data.
Proof.
rewrite /dict_get /keys => /mapP[kv kv_d ->].
have: kv \in [seq kv' <- d | kv'.1 == kv.1] by rewrite mem_filter eqxx.
by case: [seq _ <- d | _] => // kv0 rest _; exists kv0.2.
Qed.

Lemma fit_row_required d ii :
  (ii < 6)%N -> fit_row (required_only d) ii = fit_row d ii.
Proof.
move=> lt_ii; rewrite /IndependentStrains.fit_row dict_get_required //.
by rewrite nth_strain_states ?unit_state_in.
Qed.

Lemma voigt_fit_required d vasp tol :
  voigt_fit (required_only d) vasp tol = voigt_fit d vasp tol.
Proof.
rewrite /IndependentStrains.voigt_fit.
have -> // : [seq fit_row (required_only d) ii | ii <- iota 0 6] =
             [seq fit_row d ii | ii <- iota 0 6].
by apply/eq_in_map => ii; rewrite mem_iota => /fit_row_required.
Qed.

Lemma all_rows_ok (f : nat -> result (seq F)) (s : seq nat) :
  (forall i, i \in s -> exists row, f i = Ok row) ->
  exists c, all_rows [seq f i | i <- s] = Ok c.
Proof.
elim: s => [|i s IH] all_ok; first by exists [::].
have [row eq_r] := all_ok i (mem_head _ _).
have [c eq_c] : exists c, all_rows [seq f i | i <- s] = Ok c.
  by apply: IH => j j_in; apply: all_ok; rewrite in_cons j_in orbT.
by exists (row :: c); rewrite /= eq_r eq_c.
Qed.

Lemma mem_missing_states d i :
  (i \in missing_states d) = (i < 6)%N && (unit_state F i \notin keys d).
Proof. by rewrite mem_filter mem_iota add0n andbC. Qed.

Lemma voigt_fit_ok d vasp tol :
  missing_states d = [::] -> exists c, voigt_fit d vasp tol = Ok c.
Proof.
move=> no_missing; rewrite /IndependentStrains.voigt_fit.
have [|c ->] := @all_rows_ok (fit_row d) (iota 0 6); last by eexists.
move=> ii; rewrite mem_iota add0n => /= lt_ii.
have in_keys : unit_state F ii \in keys d.
  have := mem_missing_states d ii; rewrite no_missing in_nil lt_ii /=.
  by move/esym/negbFE.
have [data eq_data] := dict_get_ok in_keys.
by rewrite /IndependentStrains.fit_row nth_strain_states // eq_data; eexists.
Qed.

(** C6.  Once the samples are classified into the dict d:
    - if the unit state of some axis i < 6 is not a key of d, the call
      raises the error carrying the missing states, which are exactly
      the axes whose unit state is not a key;
    - if all six unit states are keys and d has other keys as well, the
      call emits the warning and returns the fit, which is the fit
      computed from d without the other keys. *)
Theorem from_independent_strains_coverage (strains stresses : seq (mat3 F))
    eq_stress vasp tol ws d :
  get_strain_state_dict strains stresses eq_stress (tol_1em10 F) true true
    = (ws, Ok d) ->
  [/\ forall i, (i < 6)%N -> unit_state F i \notin keys d ->
        i \in missing_states d /\
        from_independent_strains strains stresses eq_stress vasp tol
        = (ws, Raise (MissingStrainStates (missing_states d))),
      forall i, i \in missing_states d <->
                (i < 6)%N /\ unit_state F i \notin keys d
    & (forall i, (i < 6)%N -> unit_state F i \in keys d) ->
      extra_states d != [::] ->
      exists2 c, voigt_fit (required_only d) vasp tol = Ok c
        & from_independent_strains strains stresses eq_stress vasp tol
          = (ws ++ [:: ExtraStrainStates], Ok c)].
Proof.
move=> eq_d; rewrite /from_independent_strains.
rewrite /IndependentStrains.from_independent_strains eq_d /=.
split=> [i lt_i not_key|i|all_keys extra].
- have i_missing : i \in missing_states d by rewrite mem_missing_states lt_i.
  split=> //; case: (missing_states d) i_missing => //= j rest _.
  by rewrite cats0.
- by rewrite mem_missing_states; split=> [/andP[]|[-> ->]].
have no_missing : missing_states d = [::].
  apply/eqP; rewrite -[_ == _]negbK -has_filter -all_predC.
  by apply/allP => i; rewrite mem_iota add0n /= negbK; apply: all_keys.
rewrite no_missing /= lt0n size_eq0 extra /=.
have [c eq_c] := voigt_fit_ok vasp tol no_missing.
by exists c; rewrite ?voigt_fit_required eq_c.
Qed.

Lemma unit_state1_notin_unit_dict (g : group F) :
  unit_state F 1
    \notin keys [:: (strain_state_of [:: 0%N] [:: 1; 0; 0; 0; 0; 0], g)].
Proof.
rewrite /keys /= inE /strain_state_of /= /unit_state /= eqseq_cons.
by rewrite divr1 eq_sym oner_eq0.
Qed.

End Theory.

(** One sample of unit strain along the first axis: the other five unit
    states are missing and the call raises. *)
Lemma from_independent_strains_coverage_witness :
  let d := [:: (strain_state_of [:: 0%N] [:: (1 : rat); 0; 0; 0; 0; 0],
                build_group
                  [:: strain_voigt (zeroed (tol_1em10 rat) (axial_strain 1))]
                  [:: stress_voigt (zeroed (tol_1em10 rat) (@zero_mat3 rat))]
                  (Some (stress_voigt (@zero_mat3 rat))) true [:: 0%N])] in
  from_independent_strains (fun _ _ => 0) [:: axial_strain 1]
    [:: @zero_mat3 rat] (Some (@zero_mat3 rat)) false 0
  = ([::], Raise (MissingStrainStates (missing_states d))).
Proof.
move=> d.
have eq_res := get_strain_state_dict_unit (@zero_mat3 rat) (@zero_mat3 rat).
have [missing _ _] :=
  from_independent_strains_coverage (fun _ _ => 0) false 0 eq_res.
by have [] := missing 1%N isT (unit_state1_notin_unit_dict _).
Defined.

End IndependentStrainsTheory.

Module ElasticPropertiesTheory.
Import ElasticProperties.
Local Open Scope ring_scope.

Section Theory.
Variable F : realFieldType.
Variable rpow : F -> F -> F.
Variable pi : F.
Variable eV_A3_to_GPa : F.
Implicit Types (t : tensor F) (st : structure F).

Local Notation trans_v := (trans_v rpow).
Local Notation guarded_methods := (guarded_methods rpow pi eV_A3_to_GPa).
Local Notation get_structure_property_dict :=
  (get_structure_property_dict rpow pi eV_A3_to_GPa).
Local Notation property_dict := (property_dict eV_A3_to_GPa).

Lemma is_unphysical_true t k g :
  k_vrh t = ([::], Ok k) -> g_vrh t = ([::], Ok g) -> (k < 0) || (g < 0) ->
  is_unphysical t = ([::], Ok true).
Proof.
rewrite /is_unphysical => -> eq_g /=.
by case: ifP => //= _ g_lt0; rewrite eq_g /= g_lt0.
Qed.

Lemma raise_if_unphysical_raises func t st :
  is_unphysical t = ([::], Ok true) ->
  raise_if_unphysical func t st = ([::], Raise Unphysical).
Proof. by rewrite /raise_if_unphysical => ->. Qed.

Lemma k_vrh_unit t k : k_vrh t = ([::], Ok k) -> t \in unitmx.
Proof.
rewrite /k_vrh /k_reuss /compliance_voigt /linalg_inv.
by case: ifP.
Qed.

Lemma property_dict_ok t :
  t \in unitmx ->
  exists vs : seq F,
    size vs = 9%N /\
    property_dict t =
    ([::], Ok [seq (pv.1, PyFloat pv.2)
              | pv <- zip [:: "k_voigt"; "k_reuss"; "k_vrh"; "g_voigt";
                              "g_reuss"; "g_vrh"; "universal_anisotropy";
                              "homogeneous_poisson"; "y_mod"]%string vs]).
Proof.
move=> unit_t; rewrite /ElasticProperties.property_dict.
rewrite /universal_anisotropy /homogeneous_poisson /y_mod /k_vrh /g_vrh.
rewrite /k_voigt /g_voigt /k_reuss /g_reuss /compliance_voigt /linalg_inv.
rewrite unit_t /=.
by eexists [:: _; _; _; _; _; _; _; _; _].
Qed.

(** C8.  For a tensor whose k_vrh or g_vrh is negative and any
    structure: trans_v raises, and so does every method under the
    raise_if_unphysical guard; get_structure_property_dict raises too by
    default, and with ignore_errors it returns a dict that maps trans_v
    and the other structure-dependent properties to None. *)
Theorem unphysical_tensor_guard t st k g include_base_props :
  k_vrh t = ([::], Ok k) -> g_vrh t = ([::], Ok g) -> (k < 0) || (g < 0) ->
  [/\ trans_v t st = ([::], Raise Unphysical),
      forall method, List.In method guarded_methods ->
        method t st = ([::], Raise Unphysical),
      get_structure_property_dict t st include_base_props false
        = ([::], Raise Unphysical)
    & exists2 d,
        get_structure_property_dict t st include_base_props true = ([::], Ok d)
        & forall prop, prop \in s_props -> py_get d prop = Some (PyNone F)].
Proof.
move=> eq_k eq_g negative.
have unphysical := is_unphysical_true eq_k eq_g negative.
have raises func := raise_if_unphysical_raises func st unphysical.
split.
- exact: raises.
- by move=> method /=; do 9![case=> [<-|]; first exact: raises].
- rewrite /get_structure_property_dict.
  rewrite /ElasticProperties.get_structure_property_dict /structure_props.
  by rewrite /ElasticProperties.trans_v raises.
rewrite /get_structure_property_dict.
rewrite /ElasticProperties.get_structure_property_dict unphysical.
case: include_base_props; last first.
  eexists; first by [].
  by move=> prop; rewrite !inE; do 7![case/orP=> [/eqP->//|]]; move/eqP->.
have [vs [size_vs ->]] := property_dict_ok (k_vrh_unit eq_k).
case: vs size_vs => [|v1 [|v2 [|v3 [|v4 [|v5 [|v6 [|v7 [|v8 [|v9 [|v vs]]]]]]]]]] //.
move=> _; eexists; first by [].
by move=> prop; rewrite !inE; do 7![case/orP=> [/eqP->//|]]; move/eqP->.
Qed.

(* ----- a tensor with negative moduli ----- *)

Lemma at6_scalar (c : F) i j :
  (i < 6)%N -> (j < 6)%N ->
  at6 (c%:M : 'M[F]_6) i j = if i == j then c else 0.
Proof.
move=> lt_i lt_j; rewrite /at6 mxE -val_eqE /= !inordK //.
by case: eqP => _; rewrite ?mulr1n ?mulr0n.
Qed.

Lemma block_sum_scalar (c : F) : block_sum (c%:M : 'M[F]_6) = 3%:R * c.
Proof.
rewrite /block_sum unlock /= !at6_scalar //= !addr0 !add0r.
by rewrite mulr_natl 2!mulrS mulr1n.
Qed.

Lemma scalar_tensor_unphysical (a : F) :
  a < 0 ->
  exists k g, [/\ k_vrh (a%:M : tensor F) = ([::], Ok k),
                  g_vrh (a%:M : tensor F) = ([::], Ok g)
                & (k < 0) || (g < 0)].
Proof.
move=> a_lt0; have a_unit : (a%:M : 'M[F]_6) \in unitmx.
  by rewrite unitmxE det_scalar unitfE expf_neq0 // lt_eqF.
rewrite /k_vrh /g_vrh /k_voigt /g_voigt /k_reuss /g_reuss.
rewrite /compliance_voigt /linalg_inv a_unit /= invmx_scalar.
do 2!eexists; split=> //; apply/orP; left.
rewrite !block_sum_scalar pmulr_rlt0 ?invr_gt0 ?ltr0n //.
rewrite -[X in _ < X]addr0; apply: ltrD.
  by rewrite pmulr_llt0 ?invr_gt0 ?ltr0n // pmulr_rlt0 ?ltr0n.
by rewrite div1r invr_lt0 pmulr_rlt0 ?ltr0n // invr_lt0.
Qed.

End Theory.

(** The tensor whose Voigt array is minus the identity has a negative
    bulk modulus: trans_v raises for it. *)
Lemma unphysical_tensor_guard_witness :
  let st := Structure 1 (1 : rat) 1 1 [:: 1] in
  trans_v (fun x _ => x) ((-1)%:M : tensor rat) st = ([::], Raise Unphysical).
Proof.
move=> st.
have [k [g [eq_k eq_g negative]]] := scalar_tensor_unphysical (@ltrN10 rat).
by have [] := unphysical_tensor_guard (fun x _ => x) 0 0 st true
                eq_k eq_g negative.
Defined.

Section DeadCheck.
Variable F : realFieldType.
Variable rpow : F -> F -> F.
Implicit Types (t : tensor F) (st : structure F).

(** The moduli of an invertible tensor, and the failure of the inverse
    otherwise. *)
Lemma vrh_cases t :
  (exists k g, [/\ t \in unitmx, k_vrh t = ([::], Ok k)
                 & g_vrh t = ([::], Ok g)])
  \/ [/\ t \notin unitmx, k_vrh t = ([::], Raise LinAlgError)
       & g_vrh t = ([::], Raise LinAlgError)].
Proof.
rewrite /k_vrh /g_vrh /k_voigt /g_voigt /k_reuss /g_reuss /compliance_voigt.
rewrite /linalg_inv; case: (boolP (t \in unitmx)) => unit_t /=; last by right.
by left; eexists; eexists; split.
Qed.

(** X10.  The second check of trans_v and long_v is dead code.  Whatever
    the tensor and the structure, when trans_v or long_v raises, the
    error is the one of the raise_if_unphysical guard or the LinAlgError
    of np.linalg.inv on a singular Voigt array, and no warning was
    emitted: "k_vrh or g_vrh is negative, sound velocity is undefined"
    is never raised, since the guard has rejected a negative g_vrh
    before the method body tests it. *)
Theorem sound_velocity_check_is_dead t st :
  [/\ forall ws e, trans_v rpow t st = (ws, Raise e) ->
        ws = [::] /\ (e = Unphysical \/ e = LinAlgError)
    & forall ws e, long_v rpow t st = (ws, Raise e) ->
        ws = [::] /\ (e = Unphysical \/ e = LinAlgError)].
Proof.
rewrite /trans_v /long_v /raise_if_unphysical /is_unphysical.
have [[k [g [_ -> eq_g]]]|[_ -> _]] := vrh_cases t; last first.
  by split=> ws e [<- <-]; split=> //; right.
rewrite !eq_g /=; case: ifP => [_|_] /=.
  by split=> ws e [<- <-]; split=> //; left.
case: ifP => [_|ge_g] /=; last by rewrite ge_g.
by split=> ws e [<- <-]; split=> //; left.
Qed.

End DeadCheck.

Section Scaling.
Variable F : realFieldType.
Implicit Types (t v : tensor F) (c : F).

Lemma at6_scale c v i j : at6 (c *: v) i j = c * at6 v i j.
Proof. by rewrite /at6 mxE. Qed.

Lemma block_sum_scale c v : block_sum (c *: v) = c * block_sum v.
Proof.
rewrite /block_sum mulr_sumr; apply: eq_bigr => i _.
by rewrite mulr_sumr; apply: eq_bigr => j _; rewrite at6_scale.
Qed.

Lemma block_trace_scale c v : block_trace (c *: v) = c * block_trace v.
Proof.
by rewrite /block_trace mulr_sumr; apply: eq_bigr => i _; rewrite at6_scale.
Qed.

Lemma block_triu_sum_scale c v :
  block_triu_sum (c *: v) = c * block_triu_sum v.
Proof.
rewrite /block_triu_sum mulr_sumr; apply: eq_bigr => i _.
by rewrite mulr_sumr; apply: eq_bigr => j _; rewrite at6_scale.
Qed.

Lemma shear_trace_scale c v : shear_trace (c *: v) = c * shear_trace v.
Proof.
by rewrite /shear_trace mulr_sumr; apply: eq_bigr => i _; rewrite at6_scale.
Qed.

(** The four averages of an invertible tensor, as numbers. *)
Lemma moduli_values t :
  t \in unitmx ->
  [/\ k_voigt t = ([::], Ok (block_sum t / 9%:R)),
      g_voigt t = ([::], Ok ((2%:R * block_trace t - block_triu_sum t
                              + 3%:R * shear_trace t) / 15%:R)),
      k_reuss t = ([::], Ok (1 / block_sum (invmx t)))
    & g_reuss t = ([::], Ok (15%:R / (8%:R * block_trace (invmx t)
                                      - 4%:R * block_triu_sum (invmx t)
                                      + 3%:R * shear_trace (invmx t))))].
Proof.
by move=> unit_t; rewrite /k_reuss /g_reuss /compliance_voigt /linalg_inv unit_t.
Qed.

(** X11.  Change of units.  Multiplying an invertible tensor by a
    nonzero factor c multiplies k_vrh and g_vrh by c and leaves the
    universal anisotropy and the homogeneous Poisson ratio unchanged
    (exact arithmetic). *)
Theorem moduli_scale_with_units t c :
  c != 0 -> t \in unitmx ->
  [/\ exists2 k, k_vrh t = ([::], Ok k) & k_vrh (c *: t) = ([::], Ok (c * k)),
      exists2 g, g_vrh t = ([::], Ok g) & g_vrh (c *: t) = ([::], Ok (c * g)),
      universal_anisotropy (c *: t) = universal_anisotropy t
    & homogeneous_poisson (c *: t) = homogeneous_poisson t].
Proof.
move=> c_neq0 unit_t.
have unit_ct : c *: t \in unitmx by rewrite unitmxZ ?unitfE.
have ratio a b : (c * a) / (c * b) = a / b.
  by rewrite invfM mulrACA divff // mul1r.
have [kv gv kr gr] := moduli_values unit_t.
have [] := moduli_values unit_ct.
rewrite invmxZ // !block_sum_scale !block_trace_scale !block_triu_sum_scale.
rewrite !shear_trace_scale.
set S := block_sum t; set T := block_trace t; set U := block_triu_sum t.
set H := shear_trace t; set S' := block_sum _; set T' := block_trace _.
set U' := block_triu_sum _; set H' := shear_trace _.
have -> : c * S / 9%:R = c * (S / 9%:R) by rewrite mulrA.
have -> : (2%:R * (c * T) - c * U + 3%:R * (c * H)) / 15%:R
          = c * ((2%:R * T - U + 3%:R * H) / 15%:R).
  by rewrite !(mulrCA _ c) -mulrBr -mulrDr mulrA.
have -> : 1 / (c^-1 * S') = c * (1 / S').
  by rewrite !div1r invfM invrK.
have -> : 15%:R / (8%:R * (c^-1 * T') - 4%:R * (c^-1 * U') + 3%:R * (c^-1 * H'))
          = c * (15%:R / (8%:R * T' - 4%:R * U' + 3%:R * H')).
  by rewrite !(mulrCA _ c^-1) -mulrBr -mulrDr invfM invrK mulrCA.
rewrite -/S -/T -/U -/H -/S' -/T' -/U' -/H' in kv gv kr gr *.
move=> kv' gv' kr' gr'.
split.
- exists (2%:R^-1 * (S / 9%:R + 1 / S')); rewrite /k_vrh ?kv ?kr ?kv' ?kr' //=.
  by rewrite -mulrDr mulrCA.
- exists (2%:R^-1 * ((2%:R * T - U + 3%:R * H) / 15%:R
                     + 15%:R / (8%:R * T' - 4%:R * U' + 3%:R * H')));
    rewrite /g_vrh ?gv ?gr ?gv' ?gr' //=.
  by rewrite -mulrDr mulrCA.
- rewrite /universal_anisotropy gv gr kv kr gv' gr' kv' kr' /=.
  by rewrite mulrCA !ratio.
- rewrite /homogeneous_poisson /g_vrh /k_vrh gv gr kv kr gv' gr' kv' kr' /=.
  by rewrite -!mulrDr !(mulrCA 2%:R^-1 c) !(mulrCA _ c) !ratio.
Qed.

End Scaling.

(** The identity array and the factor 2. *)
Lemma moduli_scale_with_units_witness :
  universal_anisotropy (2%:R *: (1%:M : tensor rat))
  = universal_anisotropy (1%:M : tensor rat)
  /\ homogeneous_poisson (2%:R *: (1%:M : tensor rat))
     = homogeneous_poisson (1%:M : tensor rat).
Proof.
have two_neq0 : (2%:R : rat) != 0 by rewrite pnatr_eq0.
have [_ _ eq_ua eq_hp] :=
  moduli_scale_with_units two_neq0 (unitmx1 rat 6).
by split.
Defined.

End ElasticPropertiesTheory.

Module FittingTheory.
Import Symbols FiniteDifference StrainStates IndependentStrains Fitting.
Import SymbolsTheory FiniteDifferenceTheory StrainStatesTheory.
Local Open Scope ring_scope.

Section PseudoInverse.
Variable F : realFieldType.

Lemma gram_eq0 r n (D : 'M[F]_(r, n)) : D *m D^T = 0 -> D = 0.
Proof.
move=> DDt0; apply/matrixP => i j; rewrite [RHS]mxE.
have: (D *m D^T) i i = 0 by rewrite DDt0 mxE.
rewrite mxE => /eqP; rewrite psumr_eq0 => [k _|/allP sq0].
  by rewrite mxE -expr2 sqr_ge0.
have := sq0 j (mem_index_enum _).
by rewrite mxE -expr2 sqrf_eq0 /= => /eqP.
Qed.

Lemma gram_unit r n (C : 'M[F]_(r, n)) : row_free C -> C *m C^T \in unitmx.
Proof.
move=> free_C; rewrite -row_free_unit -kermx_eq0.
set K := kermx _.
have KC0 : K *m C = 0.
  apply: gram_eq0; rewrite trmx_mul mulmxA -[K *m C *m _]mulmxA.
  by rewrite mulmx_ker mul0mx.
have kerC0 : kermx C = 0 by apply/eqP; rewrite kermx_eq0.
by have := introT sub_kermxP KC0; rewrite kerC0 submx0.
Qed.

Lemma pinv_factors m r n (B : 'M[F]_(m, r)) (C : 'M[F]_(r, n))
    (L : 'M[F]_(n, m)) :
  row_free C -> row_free B^T -> L *m (B *m C) = 1%:M ->
  C^T *m invmx (C *m C^T) *m invmx (B^T *m B) *m B^T *m (B *m C) = 1%:M.
Proof.
move=> free_C free_Bt LA1.
have unit_CCt : C *m C^T \in unitmx by apply: gram_unit.
have unit_BtB : B^T *m B \in unitmx.
  by rewrite -{2}[B]trmxK; apply: gram_unit.
pose P := C^T *m invmx (C *m C^T) *m C.
have -> : C^T *m invmx (C *m C^T) *m invmx (B^T *m B) *m B^T *m (B *m C) = P.
  rewrite -[_ *m B^T *m (B *m C)]mulmxA [B^T *m (B *m C)]mulmxA.
  by rewrite [_ *m (B^T *m B *m C)]mulmxA mulmxKV.
have AP : B *m C *m P = B *m C.
  rewrite /P -[B *m C *m _]mulmxA; congr (B *m _).
  by rewrite !mulmxA mulmxV // mul1mx.
by rewrite -[P]mul1mx -LA1 -mulmxA AP.
Qed.

(** A matrix with a left inverse is undone by its pseudo-inverse. *)
Lemma pinv_left_inverse m n (A : 'M[F]_(m, n)) (L : 'M[F]_(n, m)) :
  L *m A = 1%:M -> pinv A *m A = 1%:M.
Proof.
move=> LA1.
have := @pinv_factors _ _ _ (col_base A) (row_base A) L (row_base_free A).
rewrite /row_free mxrank_tr mulmx_base /pinv; apply=> //.
exact: col_base_full.
Qed.

End PseudoInverse.

Section Degree2.
Variable F : realFieldType.

Let pairs := combinations_with_replacement 2 (iota 0 6).

Lemma sort2 (x y : nat) :
  sort leq [:: x; y] = if (x <= y)%N then [:: x; y] else [:: y; x].
Proof. by rewrite /sort /=; case: ifP. Qed.

Lemma mem_pairs t :
  (t \in pairs) = [&& size t == 2%N, sorted leq t & all (gtn 6) t].
Proof. by rewrite mem_cwr (eq_all (in_range0 6)). Qed.

Lemma sort2_pairs i j : (i < 6)%N -> (j < 6)%N -> sort leq [:: i; j] \in pairs.
Proof.
move=> lt_i lt_j; rewrite mem_pairs size_sort (sort_sorted leq_total).
by rewrite all_sort /= lt_i lt_j.
Qed.

Lemma pairs_digits t : t \in pairs -> all (gtn 10) t.
Proof.
rewrite mem_pairs => /and3P[_ _]; apply: sub_all => d /= lt_d.
exact: leq_trans lt_d _.
Qed.

Lemma Symbol_inj : injective Symbol.
Proof. by move=> a b /(congr1 entry_code)/Some_inj. Qed.

Lemma c_vecE :
  (get_symbol_list 2 6).1 = [seq Symbol (symbol_name idx) | idx <- pairs].
Proof. by []. Qed.

Lemma c_vec_uniq : uniq (get_symbol_list 2 6).1.
Proof.
rewrite c_vecE map_inj_in_uniq ?cwr_uniq //.
move=> s t s_in t_in /Symbol_inj eq_name.
by apply: symbol_name_inj eq_name; rewrite inE pairs_digits.
Qed.

Lemma size_pairs : size pairs = n_symbols 2.
Proof. by rewrite /n_symbols c_vecE size_map. Qed.

Lemma nth_c_vec q :
  (q < n_symbols 2)%N ->
  nth Zero (get_symbol_list 2 6).1 q = Symbol (symbol_name (nth [::] pairs q)).
Proof.
by rewrite -size_pairs => lt_q; rewrite c_vecE (nth_map [::]).
Qed.

Lemma c_arr2 i j :
  (i < 6)%N -> (j < 6)%N ->
  (get_symbol_list 2 6).2 [:: i; j] = Symbol (symbol_name (sort leq [:: i; j])).
Proof. by move=> lt_i lt_j; rewrite c_arr_spec /valid_index /= lt_i lt_j. Qed.

Lemma flatten_map1 (A B : Type) (f : A -> B) (s : seq A) :
  flatten [seq [:: f x] | x <- s] = [seq f x | x <- s].
Proof. by elim: s => //= x s ->. Qed.

Lemma div_num_map (A : Type) (c : A -> F) (nm : A -> string) p s k :
  div_num [seq Term (c x) (nm x) p | x <- s] k
  = [seq Term (c x / k) (nm x) p | x <- s].
Proof. by rewrite /div_num -map_comp. Qed.

Lemma diff_s_map (A : Type) (c : A -> F) (nm : A -> string) p s :
  diff_s [seq Term (c x) (nm x) p.+1 | x <- s]
  = [seq Term (c x * p.+1%:R) (nm x) p | x <- s].
Proof.
by rewrite /diff_s filter_map (@eq_filter _ _ predT) ?filter_predT -?map_comp.
Qed.

Lemma diff_sym_map (A : Type) (c : A -> F) (nm : A -> string) s name :
  diff_sym [seq Term (c x) (nm x) 0 | x <- s] (Symbol name)
  = \sum_(x <- s | nm x == name) c x.
Proof. by rewrite /diff_sym big_map; apply: eq_bigl => x /=; rewrite andbT. Qed.

(** The row of the degree-2 expressions: entry i of a state is
    sum_j c_(sorted i j) * state_j, once differentiated in s. *)
Lemma state_exprs2 (state : vec6 F) i name :
  (i < 6)%N ->
  diff_sym (nth [::] (state_exprs 2 state) i) (Symbol name)
  = \sum_(j <- iota 0 6 | symbol_name (sort leq [:: i; j]) == name)
      nth 0 state j.
Proof.
move=> lt_i.
have -> : state_exprs 2 state =
    [seq diff_s (div_num (dot_state (fun idx =>
                   expr_of_entry F ((get_symbol_list 2 6).2 idx)) state [:: k])
                   1)
    | k <- iota 0 6] by [].
rewrite (nth_map 0%N) ?size_iota // nth_iota // add0n /dot_state.
have -> : [seq mul_xs (expr_of_entry F ((get_symbol_list 2 6).2 (rcons [:: i] j)))
                 (nth 0 state j) | j <- iota 0 6]
        = [seq [:: Term (1 * nth 0 state j)
                     (symbol_name (sort leq [:: i; j])) 1] | j <- iota 0 6].
  apply/eq_in_map => j; rewrite mem_iota add0n => /andP[_ lt_j].
  by rewrite [rcons _ _]/= c_arr2.
rewrite flatten_map1 div_num_map diff_s_map diff_sym_map.
by apply: eq_bigr => j _; rewrite mul1r divr1 mulr1.
Qed.


(** Entry (6 n + i, q) of the degree-2 matrix: the sum of the components j
    of state n for which c_(sorted i j) is the q-th symbol. *)
Lemma pseudo_mat2E (states : seq (vec6 F)) (r : 'I_(6 * size states))
    (q : 'I_(n_symbols 2)) :
  pseudo_mat states 2 r q
  = \sum_(j <- iota 0 6 | sort leq [:: (r %% 6)%N; j] == nth [::] pairs q)
      nth 0 (nth [::] states (r %/ 6)) j.
Proof.
rewrite mxE nth_c_vec // state_exprs2 ?ltn_pmod //.
rewrite big_seq_cond [RHS]big_seq_cond; apply: eq_bigl => j.
rewrite mem_iota add0n /=; case: ltnP => //= lt_j.
apply/eqP/eqP => [|-> //].
apply: symbol_name_inj; rewrite inE pairs_digits ?sort2_pairs ?ltn_pmod //.
by rewrite mem_nth // size_pairs.
Qed.

Lemma sum_scaled_unit (P : pred nat) a :
  (a < 6)%N ->
  \sum_(j <- iota 0 6 | P j) nth 0 (scaled_unit a (1 : F)) j = (P a)%:R.
Proof.
move=> lt_a; rewrite big_mkcond.
do 6?[case: a lt_a => [|a] // lt_a];
  by rewrite unlock /= !if_same ?addr0 ?add0r; case: (P _).
Qed.

Section UnitStates.
Variables (C : nat -> nat -> F) (axes : seq nat) (states : seq (vec6 F)).
Hypothesis C_sym : forall i j, (i < 6)%N -> (j < 6)%N -> C i j = C j i.
Hypothesis size_states : size states = size axes.
Hypothesis nth_states : forall n, (n < size axes)%N ->
  nth [::] states n = scaled_unit (nth 0%N axes n) 1.
Hypothesis axes_lt : all (gtn 6) axes.
Hypothesis axes_all : forall a, (a < 6)%N -> a \in axes.

Let axis_of (r : nat) : nat := nth 0%N axes (r %/ 6).

Lemma row_state_nat (r : nat) :
  (r < 6 * size states)%N -> (r %/ 6 < size axes)%N.
Proof. by rewrite size_states mulnC ltn_divLR. Qed.

Lemma row_state (r : 'I_(6 * size states)) : (r %/ 6 < size axes)%N.
Proof. exact: row_state_nat. Qed.

Lemma axis_of_lt (r : 'I_(6 * size states)) : (axis_of r < 6)%N.
Proof. exact: (allP axes_lt) (mem_nth _ (row_state r)). Qed.

Lemma pseudo_mat_unit (r : 'I_(6 * size states)) (q : 'I_(n_symbols 2)) :
  pseudo_mat states 2 r q
  = (sort leq [:: (r %% 6)%N; axis_of r] == nth [::] pairs q)%:R.
Proof.
rewrite pseudo_mat2E nth_states ?row_state // -/(axis_of r).
have a_in : axis_of r \in iota 0 6 by rewrite mem_iota add0n axis_of_lt.
by rewrite sum_scaled_unit ?axis_of_lt.
Qed.


Let ctrue := constants2 C.
Let dei : seq (seq (vec6 F)) := [seq [:: tensor_column C a] | a <- axes].

Lemma pair_index i j :
  (i < 6)%N -> (j < 6)%N ->
  exists2 q : 'I_(n_symbols 2),
    nth [::] pairs q = sort leq [:: i; j] & ctrue q 0 = C i j.
Proof.
move=> lt_i lt_j; have := sort2_pairs lt_i lt_j; rewrite sort2.
set s := (if _ then _ else _) => s_in.
have lt_q : (index s pairs < n_symbols 2)%N by rewrite -size_pairs index_mem.
exists (Ordinal lt_q); first by rewrite [nat_of_ord _]/= nth_index.
rewrite mxE [nat_of_ord _]/= nth_index // /s.
by case: ifP => // _; apply: C_sym.
Qed.

Lemma nth_pairs_inj (q q' : 'I_(n_symbols 2)) :
  (nth [::] pairs q == nth [::] pairs q') = (q == q').
Proof. by rewrite nth_uniq ?size_pairs // cwr_uniq. Qed.

Lemma svecE (r : 'I_(6 * size states)) :
  svec (size states) dei 1 r 0 = C (r %% 6) (axis_of r).
Proof.
rewrite mxE /dei (nth_map 0%N) ?row_state //= /tensor_column.
by rewrite (nth_map 0%N) ?size_iota ?ltn_pmod // nth_iota ?ltn_pmod.
Qed.

(** The derivatives are the image of the constants of C. *)
Lemma svec_image : svec (size states) dei 1 = pseudo_mat states 2 *m ctrue.
Proof.
apply/colP => r; rewrite svecE mxE.
have [q0 eq_q0 <-] := pair_index (ltn_pmod r (ltn0Sn 5)) (axis_of_lt r).
rewrite (bigD1 q0) //= pseudo_mat_unit eq_q0 eqxx mul1r big1 ?addr0 // => q ne_q.
by rewrite pseudo_mat_unit -eq_q0 eq_sym nth_pairs_inj (negPf ne_q) mul0r.
Qed.

(** With all six axes sampled, the matrix has a left inverse. *)
Lemma pseudo_mat_left_inverse :
  exists L, L *m pseudo_mat states 2 = 1%:M.
Proof.
pose row_of (q : nat) :=
  (6 * index (nth 0 (nth [::] pairs q) 1) axes + nth 0 (nth [::] pairs q) 0)%N.
have pairP (q : 'I_(n_symbols 2)) :
    exists u v, [/\ nth [::] pairs q = [:: u; v], (u <= v)%N, (u < 6)%N & (v < 6)%N].
  have: nth [::] pairs q \in pairs by rewrite mem_nth ?size_pairs.
  rewrite mem_pairs; case: (nth _ _ _) => [|u [|v [|w t]]] //=.
  by rewrite !andbT => /and3P[le_uv lt_u lt_v]; exists u, v.
have lt_row (q : 'I_(n_symbols 2)) : (row_of q < 6 * size states)%N.
  have [u [v [eq_q _ lt_u lt_v]]] := pairP q; rewrite /row_of eq_q /=.
  have: (index v axes < size axes)%N by rewrite index_mem axes_all.
  rewrite -size_states; move: (index _ _) (size _) => k n lt_k.
  by rewrite (@leq_trans (6 * k.+1)) ?leq_mul // mulnS addnC ltn_add2r.
exists (\matrix_(q, r) ((r : nat) == row_of q)%:R).
apply/matrixP => q q'; rewrite !mxE (bigD1 (Ordinal (lt_row q))) //=.
rewrite mxE eqxx mul1r big1 ?addr0.
  move=> r ne_r; rewrite mxE.
  by rewrite -[_ == row_of q]/(r == Ordinal (lt_row q)) (negPf ne_r) mul0r.
rewrite pseudo_mat_unit /axis_of /=.
have [u [v [eq_q le_uv lt_u lt_v]]] := pairP q.
rewrite /row_of eq_q sort2 /= !(mulnC 6) divnMDl // divn_small // addn0.
by rewrite modnMDl modn_small // nth_index ?axes_all // le_uv -eq_q nth_pairs_inj.
Qed.

Lemma symbol_values_unit :
  symbol_values states dei 1 = [seq ctrue q 0 | q <- enum 'I_(n_symbols 2)].
Proof.
rewrite /symbol_values /generate_pseudo svec_image mulmxA.
have [L LM1] := pseudo_mat_left_inverse.
by rewrite (pinv_left_inverse LM1) mul1mx.
Qed.

End UnitStates.
End Degree2.

Section Penrose.
Variable F : realFieldType.

Lemma penrose_factors m r n (B : 'M[F]_(m, r)) (C : 'M[F]_(r, n)) :
  row_free C -> row_free B^T ->
  let A := B *m C in
  let P := C^T *m invmx (C *m C^T) *m invmx (B^T *m B) *m B^T in
  [/\ A *m P *m A = A, P *m A *m P = P,
      (A *m P)^T = A *m P & (P *m A)^T = P *m A].
Proof.
move=> free_C free_Bt A P.
have unit_G : C *m C^T \in unitmx by apply: gram_unit.
have unit_H : B^T *m B \in unitmx.
  by rewrite -{2}[B]trmxK; apply: gram_unit.
have AP : A *m P = B *m invmx (B^T *m B) *m B^T.
  by rewrite /A /P !mulmxA -(mulmxA B C C^T) mulmxK.
have PA : P *m A = C^T *m invmx (C *m C^T) *m C.
  rewrite /A /P !mulmxA -[_ *m B^T *m B]mulmxA mulmxKV //.
have sym_G : (invmx (C *m C^T))^T = invmx (C *m C^T).
  by rewrite trmx_inv trmx_mul trmxK.
have sym_H : (invmx (B^T *m B))^T = invmx (B^T *m B).
  by rewrite trmx_inv trmx_mul trmxK.
split.
- by rewrite AP /A mulmxA -[_ *m B^T *m B]mulmxA mulmxKV.
- by rewrite PA /P !mulmxA -[_ *m C *m C^T]mulmxA mulmxKV.
- by rewrite AP !trmx_mul trmxK sym_H mulmxA.
- by rewrite PA !trmx_mul trmxK sym_G mulmxA.
Qed.

Lemma penrose_unique m n (A : 'M[F]_(m, n)) (X Y : 'M[F]_(n, m)) :
  [/\ A *m X *m A = A, X *m A *m X = X,
      (A *m X)^T = A *m X & (X *m A)^T = X *m A] ->
  [/\ A *m Y *m A = A, Y *m A *m Y = Y,
      (A *m Y)^T = A *m Y & (Y *m A)^T = Y *m A] ->
  X = Y.
Proof.
move=> [X1 X2 X3 X4] [Y1 Y2 Y3 Y4].
have AX : A *m X = A *m X *m (A *m Y).
  have -> : A *m X *m (A *m Y) = ((A *m Y) *m (A *m X))^T.
    by rewrite trmx_mul X3 Y3.
  by rewrite mulmxA Y1 X3.
have YA : Y *m A = X *m A *m (Y *m A).
  have -> : X *m A *m (Y *m A) = ((Y *m A) *m (X *m A))^T.
    by rewrite trmx_mul X4 Y4.
  by rewrite -mulmxA [A *m (X *m A)]mulmxA X1 Y4.
have -> : X = X *m A *m Y.
  by rewrite -{1}X2 -mulmxA AX !mulmxA X2.
by rewrite -{2}Y2 YA -[RHS]mulmxA Y2.
Qed.

Lemma pinv_conditions m n (A : 'M[F]_(m, n)) :
  [/\ A *m pinv A *m A = A,
      pinv A *m A *m pinv A = pinv A,
      (A *m pinv A)^T = A *m pinv A
    & (pinv A *m A)^T = pinv A *m A].
Proof.
have := @penrose_factors _ _ _ (col_base A) (row_base A) (row_base_free A).
rewrite /row_free mxrank_tr mulmx_base /pinv; apply.
exact: col_base_full.
Qed.

(** X5.  The exact-arithmetic model of np.linalg.pinv is the Moore-Penrose
    inverse: for every matrix A, pinv A is the one matrix X with
    A X A = A, X A X = X, and A X and X A symmetric.  (generate_pseudo and
    from_pseudoinverse multiply by this matrix.) *)
Theorem pinv_penrose m n (A : 'M[F]_(m, n)) (X : 'M[F]_(n, m)) :
  X = pinv A <->
  [/\ A *m X *m A = A, X *m A *m X = X,
      (A *m X)^T = A *m X & (X *m A)^T = X *m A].
Proof.
split=> [->|cond_X]; first exact: pinv_conditions.
exact: penrose_unique cond_X (pinv_conditions A).
Qed.

End Penrose.

Section Substitution.
Variable F : realFieldType.

Lemma cmap_get_notin (ks : seq entry) (vs : seq F) c acc :
  c \notin ks ->
  foldl (fun acc kv => if kv.1 == c then Some kv.2 else acc) acc (zip ks vs)
  = acc.
Proof.
elim: ks vs acc => [|k ks IH] [|v vs] acc //=.
by rewrite in_cons negb_or eq_sym => /andP[/negPf-> /IH->].
Qed.

(** Reading the value stored for the q-th of pairwise distinct keys. *)
Lemma cmap_get_zip (ks : seq entry) (vs : seq F) q :
  uniq ks -> size vs = size ks -> (q < size ks)%N ->
  cmap_get (zip ks vs) (nth Zero ks q) = Some (nth 0 vs q).
Proof.
rewrite /cmap_get; move: (None : option F).
elim: ks vs q => [|k ks IH] [|v vs] [|q] acc //= /andP[k_notin uniq_ks].
  by rewrite eqxx cmap_get_notin.
by case=> eq_size lt_q; rewrite IH.
Qed.

(** diff_fit when the classification and the derivatives succeed, for a
    dict that is not empty and an order that is not 0. *)
Lemma diff_fit_ok (strains stresses : seq (mat3 F)) eq_stress order tol
    ws d dei :
  get_strain_state_dict strains stresses eq_stress tol true true
    = (ws, Ok d) ->
  collect [seq state_derivatives order kd | kd <- d] = Ok dei ->
  (0 < order)%N -> (0 < size d)%N ->
  diff_fit strains stresses eq_stress order tol
  = (ws, Ok [seq v_subs (get_symbol_list ord.+1 6).2
               (zip (get_symbol_list ord.+1 6).1
                    (symbol_values (keys d) dei ord))
            | ord <- iota 1 order.-1]).
Proof.
rewrite /diff_fit => -> /=; rewrite /lift => -> /=.
case: order => // order _; rewrite /generate_pseudo_check /keys size_map.
case: d => // kd d _ /=; rewrite andbF /= !cats0.
by congr (_, Ok _); apply: eq_map => ord; case: (get_symbol_list _ _).
Qed.

End Substitution.

Section Synthetic.
Variable F : realFieldType.
Implicit Types (a b : nat) (x h tol : F) (C : nat -> nat -> F).

Lemma zeroed_id tol (m : mat3 F) :
  (forall i j, `|m i j| < tol -> m i j = 0) -> zeroed tol m =2 m.
Proof. by move=> small i j; rewrite /zeroed; case: ifP => // /small. Qed.

Lemma strain_voigt_ext (m m' : mat3 F) :
  m =2 m' -> strain_voigt m = strain_voigt m'.
Proof. by move=> eq_m; rewrite /strain_voigt !eq_m. Qed.

Lemma stress_voigt_ext (m m' : mat3 F) :
  m =2 m' -> stress_voigt m = stress_voigt m'.
Proof. by move=> eq_m; rewrite /stress_voigt !eq_m. Qed.

Lemma strain_voigt_axis a x :
  (a < 6)%N ->
  strain_voigt (axis_strain a x) = scaled_unit a (voigt_magnitude a x).
Proof.
do 6?[case: a => [|a] //]; move=> _;
  by rewrite /strain_voigt /axis_strain /scaled_unit /voigt_magnitude /=
             ?mulr0.
Qed.

Lemma zeroed_axis_strain tol a x :
  ~~ (`|x| < tol) -> zeroed tol (axis_strain a x) =2 axis_strain a x.
Proof.
move=> /negPf ge_x; apply: zeroed_id => i j; rewrite /axis_strain.
by case: ifP => // _; rewrite ge_x.
Qed.

Lemma apply_tensor_unit C a h :
  (a < 6)%N -> apply_tensor C (scaled_unit a h) = scaled_column C a h.
Proof.
move=> lt_a; apply: eq_map => i.
do 6?[case: a lt_a => [|a] // lt_a];
  by rewrite unlock /= !mulr0 ?addr0 ?add0r.
Qed.

Lemma stress_voigt_of_voigt (w : vec6 F) :
  size w = 6%N -> stress_voigt (stress_of_voigt w) = w.
Proof. by case: w => [|w0 [|w1 [|w2 [|w3 [|w4 [|w5 [|w6 w]]]]]]]. Qed.

Lemma zeroed_stress_of_voigt tol (w : vec6 F) :
  all (fun y => (`|y| < tol) ==> (y == 0)) w ->
  zeroed tol (stress_of_voigt w) =2 stress_of_voigt w.
Proof.
move=> /allP small; apply: zeroed_id => i j lt_y.
have [lt_k|ge_k] := ltnP (voigt_index i j) (size w); last first.
  by rewrite /stress_of_voigt nth_default.
have := small _ (mem_nth 0 lt_k).
by rewrite -/(stress_of_voigt w i j) lt_y /= => /eqP.
Qed.

Lemma voigt_magnitude_big a x :
  tol_1em10 F < `|x| -> tol_1em10 F < `|voigt_magnitude a x|.
Proof.
rewrite /voigt_magnitude; case: ifP => // _ big_x.
apply: lt_le_trans big_x _; rewrite normrM ler_peMl ?normr_ge0 //.
by rewrite normr_nat ler1n.
Qed.

Lemma voigt_magnitude_inj a : injective (voigt_magnitude a : F -> F).
Proof.
rewrite /voigt_magnitude => x y; case: ifP => // _.
by apply: mulfI; rewrite pnatr_eq0.
Qed.

Lemma big_neq0 h : tol_1em10 F < `|h| -> h != 0.
Proof.
by move=> big_h; rewrite -normr_gt0 (lt_trans (tol_1em10_gt0 F)).
Qed.

Lemma nonzero_inds_unit a h :
  (a < 6)%N -> h != 0 -> nonzero_inds (scaled_unit a h) = [:: a].
Proof.
move=> lt_a h_neq0; rewrite /nonzero_inds.
by do 6?[case: a lt_a => [|a] // lt_a]; rewrite /= h_neq0 !eqxx.
Qed.

Lemma matches_unit a b h :
  (a < 6)%N -> (b < 6)%N -> tol_1em10 F < `|h| ->
  matches [:: b] (scaled_unit a h) = (a == b).
Proof.
move=> lt_a lt_b big_h.
have small0 : (tol_1em10 F < `|0 : F|) = false.
  by rewrite normr0 ltNge (ltW (tol_1em10_gt0 F)).
rewrite /matches /template /scaled_unit.
do 6?[case: a lt_a => [|a] // lt_a];
  by do 6?[case: b lt_b => [|b] // lt_b]; rewrite /= big_h !small0.
Qed.

Lemma strain_state_of_unit a h :
  (a < 6)%N -> h != 0 ->
  strain_state_of [:: a] (scaled_unit a h) = scaled_unit a 1.
Proof.
move=> lt_a h_neq0; rewrite /strain_state_of /scaled_unit.
by do 6?[case: a lt_a => [|a] // lt_a]; rewrite /= divff // !mul0r.
Qed.

Lemma index_scaled_unit1 a : (a < 6)%N -> index 1 (scaled_unit a (1 : F)) = a.
Proof.
move=> lt_a; rewrite /scaled_unit.
by do 6?[case: a lt_a => [|a] // lt_a]; rewrite /= ?eqxx ?[0 == 1]eq_sym ?oner_eq0.
Qed.

Lemma scaled_unit1_inj a b :
  (a < 6)%N -> (b < 6)%N -> scaled_unit a (1 : F) = scaled_unit b 1 -> a = b.
Proof.
by move=> lt_a lt_b /(congr1 (index 1)); rewrite !index_scaled_unit1.
Qed.

Lemma is_zero_strain_axis a x :
  (a < 6)%N -> tol_1em10 F < `|x| ->
  is_zero_strain (tol_1em10 F) (axis_strain a x) = false.
Proof.
move=> lt_a big_x; have ge_x : (`|x| < tol_1em10 F) = false.
  by rewrite ltNge (ltW big_x).
rewrite /is_zero_strain /all9 /axis_strain.
by do 6?[case: a lt_a => [|a] // lt_a]; rewrite /= ge_x ?andbF.
Qed.

Section RoundTrip.
Variable C : nat -> nat -> F.
Variable tol : F.
Variable samples : seq (nat * F).

(** Every sample lies along one of the six axes, with a strain entry
    that is above the literal 1e-10 and that zeroed(tol) leaves alone. *)
Hypothesis on_axes :
  all (fun p => [&& (p.1 < 6)%N, tol_1em10 F < `|p.2| & ~~ (`|p.2| < tol)])
      samples.
(** zeroed(tol) leaves the stresses alone. *)
Hypothesis stresses_kept :
  all (fun p => all (fun y => (`|y| < tol) ==> (y == 0)) (stress_row C p))
      samples.

Let strains := synthetic_strains samples.
Let stresses := synthetic_stresses C samples.

Lemma sample_axis p : p \in samples -> (p.1 < 6)%N.
Proof. by move/(allP on_axes) => /and3P[]. Qed.

Lemma sample_big p :
  p \in samples -> tol_1em10 F < `|voigt_magnitude p.1 p.2|.
Proof. by move/(allP on_axes) => /and3P[_ /voigt_magnitude_big]. Qed.

Lemma synthetic_vstrains :
  [seq strain_voigt (zeroed tol e) | e <- strains] =
  [seq strain_row p | p <- samples].
Proof.
rewrite /strains /synthetic_strains -map_comp; apply/eq_in_map => p p_in /=.
have /and3P[lt_a _ kept] := allP on_axes _ p_in.
by rewrite (strain_voigt_ext (zeroed_axis_strain _ kept)) strain_voigt_axis.
Qed.

Lemma synthetic_vstresses :
  [seq stress_voigt (zeroed tol s) | s <- stresses] =
  [seq stress_row C p | p <- samples].
Proof.
rewrite /stresses /synthetic_stresses -map_comp; apply/eq_in_map => p p_in /=.
have lt_a := sample_axis p_in.
rewrite strain_voigt_axis // apply_tensor_unit //.
rewrite (stress_voigt_ext (zeroed_stress_of_voigt _)) ?stress_voigt_of_voigt //.
exact: (allP stresses_kept).
Qed.

Lemma synthetic_independent :
  undup [seq nonzero_inds v | v <- [seq strain_row p | p <- samples]] =
  [seq [:: a] | a <- present_axes samples].
Proof.
have inj1 : injective (fun a : nat => [:: a]) by move=> a b [].
rewrite /present_axes -(undup_map_inj inj1).
congr undup; rewrite -!map_comp; apply/eq_in_map => p p_in /=.
by rewrite nonzero_inds_unit ?sample_axis // big_neq0 ?sample_big.
Qed.

Lemma synthetic_find_eq_stress :
  (0 < size samples)%N ->
  find_eq_stress strains stresses (tol_1em10 F)
  = ([:: NoEqState], Ok (StressObject (@zero_mat3 F))).
Proof.
move=> some_sample.
have eq_size : size stresses = size strains.
  by rewrite /stresses /strains /synthetic_stresses /synthetic_strains !size_map.
rewrite find_eq_stressE ?size_map //=.
suff -> : eq_candidates strains stresses (tol_1em10 F) = [::] by [].
rewrite /eq_candidates -(mask_false stresses (size samples)); congr mask.
rewrite /strains /synthetic_strains -map_comp.
elim: samples on_axes => [|p ps IH] //=.
case/andP=> /and3P[lt_a big_x _] /IH ->.
by rewrite is_zero_strain_axis.
Qed.

Lemma present_axis a :
  a \in present_axes samples ->
  (a < 6)%N /\ exists2 p, p \in axis_samples samples a & p.1 = a.
Proof.
rewrite mem_undup => /mapP[p p_in ->]; split; first exact: sample_axis.
by exists p; rewrite // mem_filter eqxx.
Qed.

Lemma axis_sample_row a p :
  p \in axis_samples samples a ->
  [/\ p \in samples, p.1 = a & strain_row p = scaled_unit a (voigt_magnitude a p.2)].
Proof.
by rewrite mem_filter /strain_row => /andP[/eqP-> ->].
Qed.

Lemma synthetic_selection a :
  (a < 6)%N ->
  [seq v <- [seq strain_row p | p <- samples] | matches [:: a] v] =
  [seq strain_row p | p <- axis_samples samples a]
  /\ mask [seq matches [:: a] v | v <- [seq strain_row p | p <- samples]]
          [seq stress_row C p | p <- samples] =
     [seq stress_row C p | p <- axis_samples samples a].
Proof.
move=> lt_a.
have eq_pred : {in samples, (fun p => matches [:: a] (strain_row p))
                            =1 (fun p => p.1 == a)}.
  by move=> p p_in; rewrite /= matches_unit ?sample_axis ?sample_big.
split; first by rewrite filter_map; congr map; apply: eq_in_filter.
rewrite -map_comp -map_mask -filter_mask; congr map.
exact: eq_in_filter.
Qed.

(** One pass of the loop, for an axis that occurs in the samples. *)
Lemma synthetic_classify d a :
  a \in present_axes samples ->
  classify_state [seq strain_row p | p <- samples]
                 [seq stress_row C p | p <- samples]
                 (Some (zeros6 F)) true d [:: a]
  = ret (dict_set d (scaled_unit a 1) (axis_group C samples a)).
Proof.
case/present_axis=> lt_a [p0 p0_in _].
have [sel selt] := synthetic_selection lt_a.
rewrite classify_stateE !size_map eqxx /= sel selt /axis_group.
case eq_as: (axis_samples samples a) p0_in => [|p1 rest] // _.
have : last p1 rest \in axis_samples samples a by rewrite eq_as mem_last.
case/axis_sample_row=> last_in _ eq_row.
rewrite [last _ _]/= last_map eq_row strain_state_of_unit //.
by rewrite big_neq0 // -[a](_ : (last p1 rest).1 = a) ?sample_big //;
   have [] := axis_sample_row (_ : last p1 rest \in axis_samples samples a);
   rewrite ?eq_as ?mem_last.
Qed.

Lemma foldM_synthetic A d0 :
  uniq A -> {subset A <= present_axes samples} ->
  (forall a, a \in A -> scaled_unit a (1 : F) \notin keys d0) ->
  foldM (classify_state [seq strain_row p | p <- samples]
                        [seq stress_row C p | p <- samples]
                        (Some (zeros6 F)) true)
        d0 [seq [:: a] | a <- A]
  = ret (d0 ++ [seq (scaled_unit a 1, axis_group C samples a) | a <- A]).
Proof.
elim: A d0 => [|a A IH] d0 /=; first by rewrite cats0.
case/andP=> a_notin uniq_A sub_A fresh.
have a_present : a \in present_axes samples by apply: sub_A; rewrite mem_head.
rewrite synthetic_classify // /dict_set (negPf (fresh a (mem_head _ _))).
rewrite /= IH ?cat_rcons //.
  by move=> b b_in; apply: sub_A; rewrite in_cons b_in orbT.
move=> b b_in; rewrite /keys /unzip1 map_rcons mem_rcons in_cons negb_or.
rewrite -/(keys d0) fresh ?in_cons ?b_in ?orbT // andbT.
apply/eqP => /scaled_unit1_inj eq_ba.
have lt_b : (b < 6)%N.
  by have [] := present_axis (sub_A b _); rewrite // in_cons b_in orbT.
have lt_a : (a < 6)%N by have [] := present_axis a_present.
by move: a_notin; rewrite -(eq_ba lt_b lt_a) b_in.
Qed.

(** The classification of the synthetic samples. *)
Lemma synthetic_get_strain_state_dict :
  (0 < size samples)%N ->
  get_strain_state_dict strains stresses None tol true true
  = ([:: NoEqState], Ok (synthetic_dict C samples)).
Proof.
move=> some_sample.
rewrite /get_strain_state_dict synthetic_vstrains synthetic_vstresses.
rewrite synthetic_independent synthetic_find_eq_stress //.
have -> : (e <- ([:: NoEqState], Ok (StressObject (@zero_mat3 F))) ;;
           q <- lift (voigt_attribute e) ;;
           ret (Some q))
          = ([:: NoEqState], Ok (Some (zeros6 F))) by [].
by rewrite /bind foldM_synthetic ?undup_uniq.
Qed.

(* ----- the derivatives of the stresses ----- *)

(** Along one axis the strain entries are pairwise distinct. *)
Hypothesis distinct :
  forall a, uniq [seq p.2 | p <- axis_samples samples a].

Lemma nth_scaled_unit a h : (a < 6)%N -> nth 0 (scaled_unit a h) a = h.
Proof. by do 6?[case: a => [|a] //]. Qed.

Lemma nth_scaled_column a h c :
  (c < 6)%N -> nth 0 (scaled_column C a h) c = C c a * h.
Proof.
by move=> lt_c; rewrite (nth_map 0%N) ?size_iota // nth_iota.
Qed.

Lemma nth_reorder (rows : seq (vec6 F)) order j :
  (j < size order)%N ->
  nth [::] (reorder rows order) j = nth [::] rows (nth 0%N order j).
Proof. by move=> lt_j; rewrite (nth_map 0%N). Qed.

Lemma argsort_perm (col : seq F) : perm_eq (argsort col) (iota 0 (size col)).
Proof. by rewrite /argsort perm_sort. Qed.

Lemma column_reorder (rows : seq (vec6 F)) order a :
  all (gtn (size rows)) order ->
  column (reorder rows order) a = [seq nth 0 (column rows a) i | i <- order].
Proof.
move=> /allP lt_order; rewrite /column /reorder -map_comp.
by apply/eq_in_map => i /lt_order lt_i; rewrite /= (nth_map [::]).
Qed.

Lemma state_derivatives2 key (g : group F) hvec :
  stencil key g = Ok hvec ->
  state_derivatives 2 (key, g)
  = rbind (rbind (get_diff_coeff hvec 1) (fun coef =>
             Ok (apply_coeff coef (StrainStates.stresses g))))
          (fun row => Ok [:: row]).
Proof.
by rewrite /state_derivatives /= => -> /=; case: (get_diff_coeff _ _).
Qed.

Section OneAxis.
Variable a : nat.
Hypothesis a_present : a \in present_axes samples.

Let ms := rcons [seq strain_row p | p <- axis_samples samples a] (zeros6 F).
Let mt := rcons [seq stress_row C p | p <- axis_samples samples a] (zeros6 F).
Let order := argsort (column ms a).
Let hvec := column (StrainStates.strains (axis_group C samples a)) a.

Lemma lt_axis : (a < 6)%N.
Proof. by have [] := present_axis a_present. Qed.

Lemma axis_group_rows :
  axis_group C samples a = Group (reorder ms order) (reorder mt order).
Proof. by []. Qed.

Lemma column_ms :
  column ms a =
  rcons [seq voigt_magnitude a x | x <- [seq p.2 | p <- axis_samples samples a]] 0.
Proof.
rewrite /ms /column map_rcons -!map_comp /= nth_nseq if_same; congr rcons.
apply/eq_in_map => p /axis_sample_row[_ eq_a _].
by rewrite /= /strain_row eq_a nth_scaled_unit ?lt_axis.
Qed.

Lemma size_ms : size ms = (size (axis_samples samples a)).+1.
Proof. by rewrite /ms size_rcons size_map. Qed.

Lemma size_mt : size mt = size ms.
Proof. by rewrite /mt /ms !size_rcons !size_map. Qed.

Lemma order_lt : all (gtn (size ms)) order.
Proof.
apply/allP => i; rewrite (perm_mem (argsort_perm _)) mem_iota add0n.
by rewrite size_map.
Qed.

Lemma size_order : size order = size ms.
Proof. by rewrite (perm_size (argsort_perm _)) size_iota size_map. Qed.

Lemma hvecE : hvec = [seq nth 0 (column ms a) i | i <- order].
Proof. by rewrite /hvec axis_group_rows /= column_reorder ?order_lt. Qed.

Lemma size_hvec : size hvec = (size (axis_samples samples a)).+1.
Proof. by rewrite hvecE size_map size_order size_ms. Qed.

Lemma uniq_hvec : uniq hvec.
Proof.
have perm_h : perm_eq hvec (column ms a).
  rewrite hvecE -[X in perm_eq _ X](mkseq_nth 0) /mkseq.
  by apply: perm_map; apply: argsort_perm.
rewrite (perm_uniq perm_h) column_ms rcons_uniq.
rewrite (map_inj_uniq (@voigt_magnitude_inj a)) distinct andbT.
apply/mapP => -[x /mapP[p /axis_sample_row[p_in eq_a _] ->]] /esym/eqP.
by rewrite -eq_a (negPf (big_neq0 (sample_big p_in))).
Qed.

Lemma axis_rows_related j c :
  (j < size ms)%N -> (c < 6)%N ->
  nth 0 (nth [::] mt j) c = C c a * nth 0 (column ms a) j.
Proof.
move=> lt_j lt_c; rewrite (nth_map [::]) // /ms /mt !nth_rcons !size_map.
move: lt_j; rewrite size_ms ltnS leq_eqVlt => /predU1P[->|lt_j].
  by rewrite ltnn eqxx !nth_nseq !if_same mulr0.
rewrite lt_j !(nth_map (0%N, 0)) //.
have /axis_sample_row[_ eq_a -> /=] := mem_nth (0%N, 0) lt_j.
by rewrite /stress_row eq_a nth_scaled_column // nth_scaled_unit ?lt_axis.
Qed.

Lemma synthetic_stencil :
  stencil (scaled_unit a 1) (axis_group C samples a) = Ok hvec.
Proof.
have in1 : (1 : F) \in scaled_unit a 1.
  by rewrite -index_mem index_scaled_unit1 ?lt_axis // size_map size_iota lt_axis.
by rewrite /stencil /stencil_axis in1 index_scaled_unit1 ?lt_axis.
Qed.

(** The first derivative of the stresses along axis a is column a of C. *)
Lemma synthetic_state_derivatives :
  state_derivatives 2 (scaled_unit a 1, axis_group C samples a)
  = Ok [:: tensor_column C a].
Proof.
have -> : state_derivatives 2 (scaled_unit a 1, axis_group C samples a)
          = rbind (rbind (get_diff_coeff hvec 1) (fun coef =>
                     Ok (apply_coeff coef
                           (StrainStates.stresses (axis_group C samples a)))))
                  (fun row => Ok [:: row]).
  exact: state_derivatives2 synthetic_stencil.
have lt1 : (1 < size hvec)%N.
  rewrite size_hvec ltnS lt0n size_eq0.
  by have [_ [p]] := present_axis a_present; case: (axis_samples _ _).
have [coef -> moments] := get_diff_coeff_moments uniq_hvec lt1.
rewrite /rbind /apply_coeff /tensor_column; congr (Ok [:: _]).
apply/eq_in_map => c; rewrite mem_iota add0n => /= lt_c.
have sum1 : dot_powers coef 1 = 1 := moments 1%N lt1.
rewrite -[RHS]mulr1 -sum1 mulr_sumr; apply: eq_bigr => j _.
have lt_j : (j < size order)%N by rewrite size_order size_ms -size_hvec.
rewrite expr1 mulrCA; congr (_ * _).
have nth_hvec i : (i < size order)%N ->
    nth 0 hvec i = nth 0 (column ms a) (nth 0%N order i).
  by move=> lt_i; rewrite hvecE (nth_map 0%N).
rewrite -/mt -/ms -/order nth_reorder // axis_rows_related ?nth_hvec //.
by have /allP/(_ _ (mem_nth 0%N lt_j)) := order_lt.
Qed.

End OneAxis.

Lemma collect_map_in_ok (A : eqType) (B : Type) (f : A -> result B)
    (g : A -> B) (s : seq A) :
  {in s, forall y, f y = Ok (g y)} ->
  collect [seq f y | y <- s] = Ok [seq g y | y <- s].
Proof.
elim: s => [|y s IH] //= f_ok; rewrite f_ok ?mem_head // IH // => z z_in.
by apply: f_ok; rewrite in_cons z_in orbT.
Qed.

Lemma synthetic_derivatives :
  collect [seq state_derivatives 2 kd | kd <- synthetic_dict C samples]
  = Ok [seq [:: tensor_column C a] | a <- present_axes samples].
Proof.
rewrite /synthetic_dict -map_comp; apply: collect_map_in_ok => a a_present /=.
exact: synthetic_state_derivatives.
Qed.

(* ----- the constants read back ----- *)

Hypothesis C_sym : forall i j, (i < 6)%N -> (j < 6)%N -> C i j = C j i.
Hypothesis all_axes : forall a, (a < 6)%N -> a \in [seq p.1 | p <- samples].

Lemma synthetic_symbol_values :
  symbol_values (keys (synthetic_dict C samples))
     [seq [:: tensor_column C a] | a <- present_axes samples] 1
  = [seq constants2 C q 0 | q <- enum 'I_(n_symbols 2)].
Proof.
apply: symbol_values_unit => //.
- by rewrite /keys /unzip1 !size_map.
- move=> n lt_n; rewrite /keys /unzip1 /synthetic_dict -map_comp.
  by rewrite (nth_map 0%N).
- by apply/allP => a /present_axis[].
- by move=> a lt_a; rewrite mem_undup all_axes.
Qed.

(** X1.  Round trip of the fit in exact arithmetic.  Let C be a symmetric
    6 x 6 array and let every sample strain a single Voigt axis, with a
    strain entry above 1e-10 and not below tol, the stress being C applied
    to the strain (no stress entry is strictly between 0 and tol in
    magnitude).  If all six axes are sampled and the strain entries along
    one axis are pairwise distinct, diff_fit at order 2 emits the warning
    of find_eq_stress (no sample is at zero strain) and returns one tensor
    whose Voigt array is C. *)
Theorem diff_fit_round_trip :
  exists T,
    diff_fit (synthetic_strains samples) (synthetic_stresses C samples)
             None 2 tol
    = ([:: NoEqState], Ok [:: T])
    /\ forall i j, (i < 6)%N -> (j < 6)%N -> T [:: i; j] = Some (C i j).
Proof.
exists (v_subs (get_symbol_list 2 6).2
          (zip (get_symbol_list 2 6).1
               (symbol_values (keys (synthetic_dict C samples))
                  [seq [:: tensor_column C a] | a <- present_axes samples] 1))).
have some_sample : (0 < size samples)%N.
  by have := @all_axes 0%N isT; case: samples.
split.
  apply: diff_fit_ok (synthetic_get_strain_state_dict some_sample)
                     synthetic_derivatives _ _ => //.
  rewrite /synthetic_dict size_map /present_axes.
  have: 0%N \in undup [seq p.1 | p <- samples] by rewrite mem_undup all_axes.
  by case: (undup _).
move=> i j lt_i lt_j; rewrite /v_subs c_arr2 // synthetic_symbol_values.
have [q eq_q <-] := pair_index C_sym lt_i lt_j.
rewrite -eq_q -nth_c_vec // cmap_get_zip ?c_vec_uniq //.
- by rewrite size_map size_enum_ord.
- by rewrite (nth_map q) ?size_enum_ord // nth_ord_enum.
Qed.

End RoundTrip.

(** Unit strains along the six axes and the identity array. *)
Lemma unit_samples_facts :
  let samples : seq (nat * F) := [seq (a, 1) | a <- iota 0 6] in
  let C := fun i j : nat => if i == j then 1 else 0 : F in
  let tol := tol_1em10 F in
  [/\ all (fun p => [&& (p.1 < 6)%N, tol_1em10 F < `|p.2|
                      & ~~ (`|p.2| < tol)]) samples,
      all (fun p => all (fun y => (`|y| < tol) ==> (y == 0))
                        (stress_row C p)) samples,
      forall a, uniq [seq p.2 | p <- axis_samples samples a],
      forall i j, (i < 6)%N -> (j < 6)%N -> C i j = C j i
    & forall a, (a < 6)%N -> a \in [seq p.1 | p <- samples]].
Proof.
move=> samples C tol; have lt1 := tol_1em10_lt1 F.
have kept (y : F) : (y == 0) || (1 <= y) -> (`|y| < tol) ==> (y == 0).
  case/predU1P=> [->|ge1]; first by rewrite eqxx implybT.
  rewrite ger0_norm ?(le_trans ler01) // ltNge.
  by rewrite (le_trans (ltW lt1)).
split.
- by rewrite /= normr1 lt1 -leNgt (ltW lt1).
- rewrite /samples /stress_row /scaled_column /voigt_magnitude /C /=.
  have k0 : (`|0 : F| < tol) ==> ((0 : F) == 0) by rewrite eqxx implybT.
  have k1 := kept 1; rewrite lexx orbT in k1; have {}k1 := k1 isT.
  have k2 := kept 2%:R; rewrite ler1n orbT in k2; have {}k2 := k2 isT.
  by rewrite ?mul0r ?mul1r ?mulr1 !k0 !k1 !k2.
- by do 6?[case=> [|] //].
- by move=> i j _ _; rewrite /C eq_sym.
- by do 6?[case=> [|] //].
Qed.

End Synthetic.

(** The identity array is read back from unit strains along the six axes. *)
Lemma diff_fit_round_trip_witness :
  exists T,
    diff_fit (synthetic_strains [seq (a, 1 : rat) | a <- iota 0 6])
             (synthetic_stresses (fun i j => if i == j then 1 else 0)
                                 [seq (a, 1 : rat) | a <- iota 0 6])
             None 2 (tol_1em10 rat)
    = ([:: NoEqState], Ok [:: T])
    /\ forall i j, (i < 6)%N -> (j < 6)%N ->
         T [:: i; j] = Some (if i == j then 1 else 0).
Proof.
have [on_axes kept distinct C_sym all_axes] := unit_samples_facts rat.
exact: (diff_fit_round_trip on_axes kept distinct C_sym all_axes).
Defined.

Section ZeroStrain.
Variable F : realFieldType.

Lemma foldM_has_raise (A : eqType) (B : Type) (f : B -> A -> M B) s b x :
  x \in s ->
  (forall b0, exists ws e, f b0 x = (ws, Raise e)) ->
  exists ws e, foldM f b s = (ws, Raise e).
Proof.
move=> x_in raises; elim: s b x_in => [|y s IH] b //=.
rewrite in_cons; case eq_f: (f b y) => [ws1 [b1|e]] /=; last first.
  by move=> _; exists ws1, e.
case/predU1P=> [eq_x|/(IH b1)[ws2 [e ->]]]; last by exists (ws1 ++ ws2), e.
by have [ws [e]] := raises b; rewrite eq_x eq_f.
Qed.

Lemma classify_state_nil vs vt veq sf (d : dict F) :
  exists ws e, classify_state vs vt veq sf d [::] = (ws, Raise e).
Proof.
rewrite classify_stateE; case: ifP => _; first by exists [::], MaskMismatch.
case: [seq _ <- _ | _] => [|x sel]; first by exists [::], EmptyGroupIndex.
by exists [::], ArgminEmpty.
Qed.

Lemma zero_strain_inds tol (e : mat3 F) :
  is_zero_strain tol e -> nonzero_inds (strain_voigt (zeroed tol e)) = [::].
Proof.
rewrite /is_zero_strain /all9 /= !andbT /zeroed.
case/and3P=> /and3P[e00 e01 e02] /and3P[e10 e11 e12] /and3P[e20 e21 e22].
have -> : strain_voigt (fun i j => if `|e i j| < tol then 0 else e i j)
          = zeros6 F.
  by rewrite /strain_voigt e00 e11 e22 e21 e20 e10 !mulr0.
by rewrite /nonzero_inds /= eqxx.
Qed.

Lemma zero_strain_raises (strains stresses : seq (mat3 F)) eq_stress tol
    add_eq sort_flag :
  has (is_zero_strain tol) strains ->
  exists ws err,
    get_strain_state_dict strains stresses eq_stress tol add_eq sort_flag
    = (ws, Raise err).
Proof.
case/(has_nthP (@zero_mat3 F))=> i lt_i /zero_strain_inds zero_e.
rewrite /get_strain_state_dict.
set veq := (X in bind X _); set vs := map _ strains; set vt := map _ stresses.
case: veq => ws1 [q|err] /=; last by exists ws1, err.
have nil_in : [::] \in undup [seq nonzero_inds v | v <- vs].
  rewrite mem_undup -zero_e; apply/mapP.
  exists (nth [::] vs i); first by rewrite mem_nth ?size_map.
  by rewrite (nth_map (@zero_mat3 F)).
have [ws2 [err ->]] :=
  foldM_has_raise (f := classify_state vs vt q sort_flag) [::] nil_in
    (classify_state_nil vs vt q sort_flag).
by exists (ws1 ++ ws2), err.
Qed.
Lemma bind_raises (A B : Type) (m : M A) (k : A -> M B) :
  (exists ws err, m = (ws, Raise err)) ->
  exists ws err, bind m k = (ws, Raise err).
Proof. by case=> ws [err ->]; exists ws, err. Qed.

(** X7.  A sample at zero strain cannot be part of the input.  If some
    strain has all its entries below tol in magnitude, its reduced Voigt
    strain has the empty index set, and the pass of the loop for that
    set always raises (np.argmin on an empty selection, if nothing else
    raised before): get_strain_state_dict raises for every choice of
    eq_stress, add_eq and sort, and so does diff_fit; the same holds for
    from_independent_strains, which classifies with the default 1e-10. *)
Theorem zero_strain_sample_rejected (polyfit : seq F -> seq F -> F)
    (strains stresses : seq (mat3 F)) eq_stress tol :
  has (is_zero_strain tol) strains ->
  [/\ forall add_eq sort_flag, exists ws err,
        get_strain_state_dict strains stresses eq_stress tol add_eq sort_flag
        = (ws, Raise err),
      forall order, exists ws err,
        diff_fit strains stresses eq_stress order tol = (ws, Raise err)
    & has (is_zero_strain (tol_1em10 F)) strains ->
      forall vasp tol', exists ws err,
        from_independent_strains polyfit strains stresses eq_stress vasp tol'
        = (ws, Raise err)].
Proof.
move=> has_zero; split=> [add_eq sort_flag|order|has_zero' vasp tol'].
- exact: zero_strain_raises.
- by apply: bind_raises; apply: zero_strain_raises.
- by apply: bind_raises; apply: zero_strain_raises.
Qed.

End ZeroStrain.

Lemma zero_strain_sample_rejected_witness :
  exists ws err,
    diff_fit [:: @zero_mat3 rat; axial_strain 1]
             [:: @zero_mat3 rat; const_mat3 1] None 2 (tol_1em10 rat)
    = (ws, Raise err).
Proof.
have has_zero : has (is_zero_strain (tol_1em10 rat))
                    [:: @zero_mat3 rat; axial_strain 1].
  by rewrite /= is_zero_strain_zero ?tol_1em10_gt0.
have [_ raises _] :=
  zero_strain_sample_rejected (fun _ _ => 0)
    [:: @zero_mat3 rat; const_mat3 1] None has_zero.
exact: raises 2%N.
Defined.


End FittingTheory.

Module PseudoInverseFitTheory.
Import StrainStates Fitting PseudoInverseFit.
Import FittingTheory.
Local Open Scope ring_scope.
Section Theory.
Variable F : realFieldType.

(** Full column rank gives a left inverse, which the pseudo-inverse then
    is. *)
Lemma pinv_row_full m n (A : 'M[F]_(m, n)) :
  row_full A -> pinv A *m A = 1%:M.
Proof. by move=> /row_fullP[L LA1]; apply: pinv_left_inverse LA1. Qed.

(** X6.  Round trip of the pseudo-inverse fit in exact arithmetic: if
    the Voigt strains have full column rank (six independent strains
    among the samples) and every stress is C applied to its strain, for
    any 6 x 6 array C, from_pseudoinverse emits its warning and hands
    from_voigt exactly C. *)
Theorem from_pseudoinverse_round_trip (C : 'M[F]_6)
    (strains stresses : seq (mat3 F)) :
  size stresses = size strains ->
  row_full (voigt_rows (size strains) [seq strain_voigt e | e <- strains]) ->
  (forall i (k : 'I_6), (i < size strains)%N ->
     nth 0 (stress_voigt (nth (@zero_mat3 F) stresses i)) k
     = \sum_(j < 6) C k j
         * nth 0 (strain_voigt (nth (@zero_mat3 F) strains i)) j) ->
  from_pseudoinverse strains stresses = ([:: QuestionableFit], Fit C).
Proof.
move=> eq_size full linear; rewrite /from_pseudoinverse eq_size eqxx.
set E := voigt_rows _ _ in full *; set S := voigt_rows _ _.
have -> : S = E *m C^T.
  apply/matrixP => i k; rewrite !mxE (nth_map (@zero_mat3 F)) ?eq_size //.
  rewrite linear //; apply: eq_bigr => j _.
  by rewrite !mxE (nth_map (@zero_mat3 F)) // mulrC.
rewrite mulmxA pinv_row_full // mul1mx trmxK.
case: strains E full {eq_size linear S} => // E.
by rewrite /row_full => /eqP eq_rank; have := rank_leq_row E; rewrite eq_rank.
Qed.

(** Six strains whose Voigt rows are the unit vectors, with the stresses
    of the identity array. *)
Lemma unit_fit_facts :
  let x a : F := if (a < 3)%N then 1 else 2%:R^-1 in
  let strains := [seq axis_strain a (x a) | a <- iota 0 6] in
  let stresses := [seq stress_of_voigt (scaled_unit a (1 : F)) | a <- iota 0 6] in
  [/\ size stresses = size strains,
      row_full (voigt_rows (size strains) [seq strain_voigt e | e <- strains])
    & forall i (k : 'I_6), (i < size strains)%N ->
        nth 0 (stress_voigt (nth (@zero_mat3 F) stresses i)) k
        = \sum_(j < 6) (1%:M : 'M[F]_6) k j
            * nth 0 (strain_voigt (nth (@zero_mat3 F) strains i)) j].
Proof.
move=> x strains stresses.
have row i : (i < 6)%N ->
    strain_voigt (nth (@zero_mat3 F) strains i) = scaled_unit i 1.
  move=> lt_i; rewrite (nth_map 0%N) ?size_iota // nth_iota // add0n.
  rewrite strain_voigt_axis // /voigt_magnitude /x; case: (i < 3)%N => //.
  by rewrite mulfV // pnatr_eq0.
have unit_nth i (j : 'I_6) : (i < 6)%N ->
    nth 0 (scaled_unit i (1 : F)) j = (j == i :> nat)%:R.
  move=> lt_i; rewrite (nth_map 0%N) ?size_iota // nth_iota // add0n.
  by case: eqP.
split=> //.
- rewrite row_full_unit; set E := voigt_rows _ _.
  suff -> : E = 1%:M by rewrite unitmx1.
  apply/matrixP => i j; rewrite !mxE (nth_map (@zero_mat3 F)) ?size_map //.
  by rewrite row // unit_nth // eq_sym.
- rewrite /strains size_map size_iota => i k lt_i.
  rewrite row // [nth _ stresses i](nth_map 0%N) ?size_iota //.
  rewrite nth_iota // add0n stress_voigt_of_voigt ?size_map ?size_iota //.
  rewrite (bigD1 k) //= mxE eqxx mul1r big1 ?addr0 // => j ne_j.
  by rewrite mxE eq_sym (negPf ne_j) mul0r.
Qed.

End Theory.

Lemma from_pseudoinverse_round_trip_witness :
  from_pseudoinverse
    [seq axis_strain a (if (a < 3)%N then (1 : rat) else 2%:R^-1)
    | a <- iota 0 6]
    [seq stress_of_voigt (scaled_unit a (1 : rat)) | a <- iota 0 6]
  = ([:: QuestionableFit], Fit 1%:M).
Proof.
have [eq_size full linear] := unit_fit_facts rat.
exact: (from_pseudoinverse_round_trip eq_size full linear).
Defined.

End PseudoInverseFitTheory.

Module StrainStateGroupsTheory.
Import StrainStates Fitting.
Import StrainStatesTheory FittingTheory.
Local Open Scope ring_scope.
Section Groups.
Variable F : realFieldType.
Implicit Types (ms mt : seq (vec6 F)) (d : dict F).

Lemma size_selection (ind : seq nat) (vs vt : seq (vec6 F)) :
  size vt = size vs ->
  size (mask [seq matches ind v | v <- vs] vt)
  = size [seq v <- vs | matches ind v].
Proof.
by move=> eq_size; rewrite size_mask ?size_map // size_filter count_map.
Qed.

Lemma argsort_lt (col : seq F) : all (gtn (size col)) (argsort col).
Proof. by apply/allP => i; rewrite (perm_mem (argsort_perm col)) mem_iota. Qed.

Lemma argsort_sorted (col : seq F) :
  sorted <=%R [seq nth 0 col i | i <- argsort col].
Proof.
rewrite sorted_map /argsort; apply: sort_sorted => i j /=.
exact: le_total.
Qed.

Lemma zip_reorder ms mt order :
  size mt = size ms -> all (gtn (size ms)) order ->
  zip (reorder ms order) (reorder mt order)
  = [seq nth ([::], [::]) (zip ms mt) i | i <- order].
Proof.
move=> eq_size /allP lt_order; rewrite /reorder zip_map.
by apply/eq_in_map => i /lt_order lt_i; rewrite nth_zip.
Qed.

Lemma reorder_sorted ms mt a :
  size mt = size ms ->
  let order := argsort (column ms a) in
  [/\ sorted <=%R (column (reorder ms order) a),
      perm_eq (zip (reorder ms order) (reorder mt order)) (zip ms mt)
    & size (reorder ms order) = size (reorder mt order)].
Proof.
move=> eq_size order.
have lt_order : all (gtn (size ms)) order.
  by have := argsort_lt (column ms a); rewrite size_map.
split.
- by rewrite column_reorder //; apply: argsort_sorted.
- rewrite zip_reorder // -[X in perm_eq _ X](mkseq_nth ([::], [::])).
  apply: perm_map; rewrite size_zip eq_size minnn.
  by have := argsort_perm (column ms a); rewrite size_map.
- by rewrite !size_map.
Qed.

(** A sorted group: ascending along the first index, rows still paired. *)
Lemma build_group_sorted ms mt (veq : option (vec6 F)) ind :
  size mt = size ms ->
  let g := build_group ms mt veq true ind in
  [/\ sorted <=%R (column (StrainStates.strains g) (head 0%N ind)),
      perm_eq (zip (StrainStates.strains g) (StrainStates.stresses g))
              (zip ms mt ++ (if veq is Some q then [:: (zeros6 F, q)] else [::]))
    & size (StrainStates.strains g) = size (StrainStates.stresses g)].
Proof.
move=> eq_size; case: veq => [q|]; rewrite /build_group; last first.
  by rewrite cats0; apply: reorder_sorted.
rewrite cats1 -zip_rcons //; apply: reorder_sorted.
by rewrite !size_rcons eq_size.
Qed.

Lemma keys_dict_set d k g :
  uniq (keys d) -> uniq (keys (dict_set d k g)).
Proof.
rewrite /dict_set /keys /unzip1; case: ifP => [_|k_notin] uniq_d.
  rewrite -map_comp (@eq_map _ _ _ fst) // => kv /=.
  by case: ifP.
by rewrite map_rcons rcons_uniq k_notin.
Qed.

Lemma eq_stress_choice (strains stresses : seq (mat3 F)) eq_stress add_eq
    ws (veq : option (vec6 F)) :
  (if add_eq then
     if eq_stress is Some e then ret (Some (stress_voigt e))
     else e <- find_eq_stress strains stresses (tol_1em10 F) ;;
          q <- lift (voigt_attribute e) ;;
          ret (Some q)
   else ret None) = (ws, Ok veq) ->
  isSome veq = add_eq.
Proof.
case: add_eq => [|[_ <-] //]; case: eq_stress => [e [_ <-] //|].
move=> eq_b; have [ws1 [e [ws2 [_ eq_k _]]]] := bind_ok eq_b.
by have [ws3 [q [ws4 [_ [_ <-] _]]]] := bind_ok eq_k.
Qed.

(** X8.  What get_strain_state_dict stores when sort is set.  The keys of
    the returned dict are pairwise distinct, and every stored group
    belongs to a nonempty index set ind of the reduced strains such that:
    its strain rows ascend along the axis ind[0]; its (strain, stress)
    rows are, up to order, the selected rows of the input paired as they
    came, plus the pair (zero strain, equilibrium stress) exactly when
    add_eq is set; and it has as many strain rows as stress rows. *)
Theorem strain_state_groups_sorted (strains stresses : seq (mat3 F))
    eq_stress tol add_eq ws d :
  get_strain_state_dict strains stresses eq_stress tol add_eq true
    = (ws, Ok d) ->
  let vs := [seq strain_voigt (zeroed tol e) | e <- strains] in
  let vt := [seq stress_voigt (zeroed tol s) | s <- stresses] in
  uniq (keys d) /\
  forall key g, (key, g) \in d ->
    exists ind (veq : option (vec6 F)),
      [/\ ind \in [seq nonzero_inds v | v <- vs] /\ ind != [::],
          isSome veq = add_eq,
          sorted <=%R (column (StrainStates.strains g) (head 0%N ind)),
          perm_eq (zip (StrainStates.strains g) (StrainStates.stresses g))
                  (zip [seq v <- vs | matches ind v]
                       (mask [seq matches ind v | v <- vs] vt)
                   ++ (if veq is Some q then [:: (zeros6 F, q)] else [::]))
        & size (StrainStates.strains g) = size (StrainStates.stresses g)].
Proof.
move=> eq_d vs vt; move: eq_d; rewrite /get_strain_state_dict -/vs -/vt.
move=> eq_b; have [ws1 [veq [ws2 [/eq_stress_choice some_veq eq_fold _]]]] :=
  bind_ok eq_b.
pose Q (kv : vec6 F * group F) :=
  exists ind,
    [/\ ind \in [seq nonzero_inds v | v <- vs] /\ ind != [::],
        sorted <=%R (column (StrainStates.strains kv.2) (head 0%N ind)),
        perm_eq (zip (StrainStates.strains kv.2) (StrainStates.stresses kv.2))
                (zip [seq v <- vs | matches ind v]
                     (mask [seq matches ind v | v <- vs] vt)
                 ++ (if veq is Some q then [:: (zeros6 F, q)] else [::]))
      & size (StrainStates.strains kv.2) = size (StrainStates.stresses kv.2)].
have [uniq_d all_Q] : uniq (keys d) /\ forall kv, kv \in d -> Q kv.
  apply: (foldM_ok (P := fun d0 : dict F =>
            uniq (keys d0) /\ forall kv, kv \in d0 -> Q kv) _ _ eq_fold) => //.
  move=> d0 ind ws0 d1; rewrite mem_undup => ind_in [uniq_d0 all_d0].
  case/classify_state_inv=> row [_ _ ind_neq0 eq_size] ->.
  split=> [|kv /mem_dict_set[/all_d0 //|->]]; first exact: keys_dict_set.
  have [] := build_group_sorted veq ind
               (size_selection ind eq_size) => sorted_g perm_g size_g.
  by exists ind.
split=> // key g /all_Q[ind [ind_ok sorted_g perm_g size_g]].
by exists ind, veq.
Qed.

(** The Stress object of the fallback is the only value of find_eq_stress
    that is not a plain array. *)
Lemma find_eq_stress_object (strains stresses : seq (mat3 F)) tol ws m :
  find_eq_stress strains stresses tol = (ws, Ok (StressObject m)) ->
  [/\ ws = [:: NoEqState], stress_voigt m = zeros6 F
    & eq_candidates strains stresses tol = [::]].
Proof.
rewrite /find_eq_stress; case: strains => // e strains.
case: ifP => // _; case: (eq_candidates _ _ _) => [|s0 zs] /=.
  by case=> <- <-.
by case: ifP.
Qed.

Lemma foldM_groups_have_eq (vs vt : seq (vec6 F)) q sf inds ws d :
  foldM (classify_state vs vt (Some q) sf) [::] inds = (ws, Ok d) ->
  ws = [::] /\
  forall kv, kv \in d ->
    (zeros6 F, q) \in zip (StrainStates.strains kv.2) (StrainStates.stresses kv.2).
Proof.
move=> eq_fold; split.
  have := @foldM_warnings _ _ (classify_state vs vt (Some q) sf) inds [::]
            (classify_state_quiet vs vt (Some q) sf).
  by rewrite eq_fold.
apply: (foldM_ok (P := fun d0 : dict F => forall kv, kv \in d0 ->
          (zeros6 F, q) \in zip (StrainStates.strains kv.2)
                               (StrainStates.stresses kv.2))
          _ _ eq_fold) => // d0 ind ws0 d1 _ eq_d0.
case/classify_state_inv=> row [_ _ _ eq_size] -> kv.
case/mem_dict_set=> [/eq_d0 //|-> /=].
by apply: build_group_has_eq; rewrite size_selection.
Qed.

(** X9.  Without eq_stress, a stress found in the list is never used.
    find_eq_stress hands back a plain array when it finds a sample at
    zero strain, and reading its voigt attribute raises; so a call of
    get_strain_state_dict with eq_stress = None and add_eq set that
    succeeds found no such sample: it has emitted exactly the warning of
    find_eq_stress, and every stored group holds the zero strain paired
    with the zero stress. *)
Theorem implicit_eq_stress_is_zero (strains stresses : seq (mat3 F))
    tol sort_flag ws d :
  get_strain_state_dict strains stresses None tol true sort_flag
    = (ws, Ok d) ->
  [/\ ws = [:: NoEqState],
      eq_candidates strains stresses (tol_1em10 F) = [::]
    & forall key g, (key, g) \in d ->
        (zeros6 F, zeros6 F)
          \in zip (StrainStates.strains g) (StrainStates.stresses g)].
Proof.
rewrite /get_strain_state_dict => eq_b.
have [ws1 [veq [ws2 [eq_veq eq_fold ->]]]] := bind_ok eq_b.
have [wsa [e [wsb [eq_find eq_k ->]]]] := bind_ok eq_veq.
case: e eq_find eq_k => m // /find_eq_stress_object[-> eq_zero no_cand].
rewrite /= eq_zero => -[<- eq_veq']; move: eq_fold; rewrite -eq_veq'.
by case/foldM_groups_have_eq=> -> groups; split=> // key g /groups.
Qed.

End Groups.

(** One unit strain along the first axis with an explicit equilibrium
    stress: the dict has one key and its group is sorted. *)
Lemma strain_state_groups_sorted_witness :
  let tol := tol_1em10 rat in
  let d : dict rat :=
    [:: (strain_state_of [:: 0%N] [:: 1; 0; 0; 0; 0; 0],
         build_group [:: strain_voigt (zeroed tol (axial_strain 1))]
           [:: stress_voigt (zeroed tol (@zero_mat3 rat))]
           (Some (stress_voigt (@zero_mat3 rat))) true [:: 0%N])] in
  uniq (keys d) /\
  forall key g, (key, g) \in d ->
    exists ind (veq : option (vec6 rat)),
      ind != [::] /\ sorted <=%R (column (StrainStates.strains g) (head 0%N ind)).
Proof.
move=> tol d.
have [uniq_d groups] := strain_state_groups_sorted
  (get_strain_state_dict_unit (@zero_mat3 rat) (@zero_mat3 rat)).
split=> // key g /groups[ind [veq [[_ ind_neq0] _ sorted_g _ _]]].
by exists ind, veq.
Defined.
(** Unit strains along the six axes, no eq_stress given: the call
    succeeds and every group holds the zero strain with the zero stress. *)
Lemma implicit_eq_stress_is_zero_witness :
  all (fun kv : vec6 rat * group rat =>
         (zeros6 rat, zeros6 rat)
           \in zip (StrainStates.strains kv.2) (StrainStates.stresses kv.2))
      (synthetic_dict (fun i j : nat => if i == j then 1 else 0)
                      [seq (a, 1 : rat) | a <- iota 0 6]).
Proof.
have [on_axes kept _ _ _] := unit_samples_facts rat.
have eq_d := synthetic_get_strain_state_dict on_axes kept (isT : (0 < 6)%N).
have [_ _ groups] := implicit_eq_stress_is_zero eq_d.
by apply/allP => -[key g] /groups.
Defined.

End StrainStateGroupsTheory.

Module SymbolNamesTheory.
Import Symbols.
Import SymbolsTheory.

Lemma map_collision (T U : eqType) (f : T -> U) (s : seq T) x y :
  x \in s -> y \in s -> x != y -> f x = f y -> ~~ uniq [seq f z | z <- s].
Proof.
move=> x_in y_in ne_xy eq_f; apply/negP => uniq_fs.
have lt_x : index x s < size [seq f z | z <- s] by rewrite size_map index_mem.
have lt_y : index y s < size [seq f z | z <- s] by rewrite size_map index_mem.
have := nth_uniq (f x) lt_x lt_y uniq_fs.
rewrite !(nth_map x) ?index_mem // !nth_index // eq_f eqxx => /esym/eqP eq_i.
by move: ne_xy; rewrite -(nth_index x x_in) eq_i nth_index ?eqxx.
Qed.

(** X12.  get_symbol_list for any rank and any dimension up to 10, where
    every index is a single decimal digit.  c_vec has one symbol per
    multiset of rank indices below dim, binomial(dim + rank - 1, rank)
    of them, and they are pairwise distinct; two in-range index tuples
    carry the same entry of c_arr exactly when one is a permutation of
    the other, every such entry is a symbol of c_vec, and c_arr is
    unchanged by swapping any two axes. *)
Theorem get_symbol_list_small_dim (r dim : nat) :
  dim <= 10 ->
  let: (c_vec, c_arr) := get_symbol_list r dim in
  [/\ size c_vec = 'C((dim + r).-1, r),
      uniq c_vec,
      forall i j, valid_index r dim i -> valid_index r dim j ->
        (c_arr i = c_arr j <-> perm_eq i j) /\ c_arr i \in c_vec
    & forall a b, a < r -> b < r ->
        forall idx, swapaxes c_arr a b idx = c_arr idx].
Proof.
move=> le_dim.
have name_inj :
    {in combinations_with_replacement r (iota 0 dim) &,
       injective (fun idx => Symbol (symbol_name idx))}.
  move=> i j; rewrite !mem_cwr !(eq_all (in_range0 dim)).
  case/and3P => _ _ all_i /and3P[_ _ all_j] [eq_name].
  have lt10 s : all (gtn dim) s -> s \in [pred idx | all (gtn 10) idx].
    by rewrite inE; apply: sub_all => x lt_x; apply: leq_trans lt_x le_dim.
  have eq_ij : symbol_name i = symbol_name j by rewrite /symbol_name eq_name.
  exact: (symbol_name_inj (lt10 _ all_i) (lt10 _ all_j) eq_ij).
have sort_perm := perm_sortP leq_total leq_trans anti_leq.
have in_cwr k : valid_index r dim k ->
    sort leq k \in combinations_with_replacement r (iota 0 dim).
  case/andP=> /eqP size_k all_k.
  rewrite mem_cwr size_sort size_k eqxx (sort_sorted leq_total) /=.
  by rewrite (eq_all (in_range0 dim)) all_sort.
rewrite [get_symbol_list r dim]surjective_pairing.
set c_arr := (get_symbol_list r dim).2.
have -> : (get_symbol_list r dim).1 =
    [seq Symbol (symbol_name idx)
    | idx <- combinations_with_replacement r (iota 0 dim)] by [].
split.
- by rewrite size_map size_cwr size_iota.
- by rewrite map_inj_in_uniq // cwr_uniq.
- move=> i j valid_i valid_j; rewrite /c_arr !c_arr_spec valid_i valid_j.
  split; last by apply/mapP; exists (sort leq i); rewrite ?in_cwr.
  split=> [/name_inj eq_sort|/sort_perm-> //].
  by apply/sort_perm/eq_sort; apply: in_cwr.
- move=> a b lt_a lt_b idx; rewrite /swapaxes /c_arr !c_arr_spec.
  have [size_idx|ne_size] := eqVneq (size idx) r; last first.
    by rewrite /valid_index size_swap_index (negPf ne_size).
  have perm_idx : perm_eq (swap_index a b idx) idx.
    by apply: perm_swap_index; rewrite size_idx.
  by rewrite (valid_index_perm _ _ perm_idx) (sort_perm _ _ perm_idx).
Qed.

Lemma get_symbol_list_small_dim_witness :
  3 <= 10 /\
  let: (c_vec, c_arr) := get_symbol_list 2 3 in
  [/\ size c_vec = 'C((3 + 2).-1, 2),
      uniq c_vec,
      forall i j, valid_index 2 3 i -> valid_index 2 3 j ->
        (c_arr i = c_arr j <-> perm_eq i j) /\ c_arr i \in c_vec
    & forall a b, a < 2 -> b < 2 ->
        forall idx, swapaxes c_arr a b idx = c_arr idx].
Proof. by split; [|exact: (@get_symbol_list_small_dim 2 3 isT)]. Defined.

(** X13.  Symbols are told apart by their names only, and a name is the
    plain concatenation of the decimal indices, so with indices of
    several digits two different multisets can share a name.  For rank 2
    and dim 112 the index pairs (1, 111) and (11, 11) are in range and
    are not permutations of each other, yet both are named c_1111:
    c_arr carries the same symbol at both and c_vec holds that symbol
    twice. *)
Theorem symbol_names_collide :
  let: (c_vec, c_arr) := get_symbol_list 2 112 in
  [/\ valid_index 2 112 [:: 1; 111] /\ valid_index 2 112 [:: 11; 11],
      ~~ perm_eq [:: 1; 111] [:: 11; 11],
      c_arr [:: 1; 111] = c_arr [:: 11; 11]
    & ~~ uniq c_vec].
Proof.
rewrite [get_symbol_list 2 112]surjective_pairing.
have eq_name : symbol_name [:: 1; 111] = symbol_name [:: 11; 11].
  by vm_compute.
have valid_a : valid_index 2 112 [:: 1; 111] by vm_compute.
have valid_b : valid_index 2 112 [:: 11; 11] by vm_compute.
have sort_a : sort leq [:: 1; 111] = [:: 1; 111] by vm_compute.
have sort_b : sort leq [:: 11; 11] = [:: 11; 11] by vm_compute.
split.
- by split.
- by vm_compute.
- by rewrite !c_arr_spec valid_a valid_b sort_a sort_b eq_name.
- have -> : (get_symbol_list 2 112).1 =
    [seq Symbol (symbol_name idx)
    | idx <- combinations_with_replacement 2 (iota 0 112)] by [].
  apply: (@map_collision _ _ _ _ [:: 1; 111] [:: 11; 11]).
  + by rewrite mem_cwr; vm_compute.
  + by rewrite mem_cwr; vm_compute.
  + by vm_compute.
  + by rewrite eq_name.
Qed.

End SymbolNamesTheory.
